(** * MCP Context Bridge: the expiring bounded cache and the cached file store

    A shallow embedding of [src/smart-cache.ts], [src/utils.ts] and the
    cache-backed I/O methods of [src/context-manager.ts], followed by the
    properties of the specification proved (or refuted) over it.

    Conventions of the embedding.
    - A JavaScript [Map<string, V>] is an association list in insertion
      order with pairwise distinct keys: [Map.prototype.set] overwrites in
      place or appends, [delete] drops the binding, iteration follows the
      list.  Order matters because [evictLRU] keeps the first entry met
      with the least [lastAccessed].
    - A [number] holding a timestamp, a duration or a size bound is a [Z].
    - Every [Date.now()] executed by a method is an explicit argument of its
      embedding, one argument per call site reached.
    - [T | null] is [option T]; a rejected promise / thrown [Error] is the
      left injection of a sum. *)

From Stdlib Require Import List String Ascii ZArith Lia Bool.
Local Open Scope string_scope.
Import ListNotations.

(* ================================================================== *)
(** ** The host [Map] *)

Module JsMap.
Section Ops.
Context {V : Type}.

Definition t := list (string * V).

Definition empty : t := [].

Definition keys (m : t) : list string := map fst m.

Definition size (m : t) : Z := Z.of_nat (List.length m).

Fixpoint get (k : string) (m : t) : option V :=
  match m with
  | [] => None
  | (k', v) :: m' => if String.eqb k k' then Some v else get k m'
  end.

Definition has (k : string) (m : t) : bool :=
  match get k m with Some _ => true | None => false end.

(** [Map.prototype.set]: an existing key keeps its position. *)
Fixpoint set (k : string) (v : V) (m : t) : t :=
  match m with
  | [] => [(k, v)]
  | (k', v') :: m' =>
      if String.eqb k k' then (k, v) :: m' else (k', v') :: set k v m'
  end.

Fixpoint delete (k : string) (m : t) : t :=
  match m with
  | [] => []
  | (k', v') :: m' =>
      if String.eqb k k' then delete k m' else (k', v') :: delete k m'
  end.

(** The representation invariant of a [Map]: keys are unique. *)
Definition wf (m : t) : Prop := NoDup (keys m).
End Ops.
Arguments t : clear implicits.
End JsMap.

(* ================================================================== *)
(** ** [src/smart-cache.ts] *)

Module SmartCache.

Record CacheEntry (T : Type) : Type := mkEntry {
  value : T;
  expiry : Z;        (* timestamp when this entry expires *)
  lastAccessed : Z   (* timestamp for LRU tracking *)
}.
Arguments mkEntry {T} value expiry lastAccessed.
Arguments value {T} c.
Arguments expiry {T} c.
Arguments lastAccessed {T} c.

(** A [RegExp] without the [g] or the [y] flag, as [invalidatePattern]
    sees it: only [pattern.test(key)] is used, and for such a pattern
    [test] is a function of the key alone.  This is the pattern of every
    call site of the repository.  A [RegExp] object with flags is
    modelled in [StatefulPattern] below. *)
Record RegExp : Type := mkRegExp { test : string -> bool }.

Record t (T : Type) : Type := mk {
  cache : JsMap.t (CacheEntry T);
  maxSize : Z;
  ttl : Z            (* default TTL in milliseconds *)
}.
Arguments mk {T} cache maxSize ttl.
Arguments cache {T} t.
Arguments maxSize {T} t.
Arguments ttl {T} t.

Section Methods.
Context {T : Type}.

Definition with_cache (c : t T) (m : JsMap.t (CacheEntry T)) : t T :=
  {| cache := m; maxSize := maxSize c; ttl := ttl c |}.

(** [constructor(maxSize = 1000, ttl = 5 * 60 * 1000)] *)
Definition new (maxSize : option Z) (ttl : option Z) : t T :=
  {| cache := JsMap.empty;
     maxSize := match maxSize with Some n => n | None => 1000 end;
     ttl := match ttl with Some d => d | None => 5 * 60 * 1000 end |}%Z.

(** [prune()]: the loop body, run for each [[key, entry]] of the map.
    A [Map] iterator visits every binding present when it gets there;
    the body deletes only the binding being visited, so the bindings
    visited are those of the map at loop entry. *)
Definition prune_step (now : Z)
    (acc : JsMap.t (CacheEntry T) * Z) (ke : string * CacheEntry T)
    : JsMap.t (CacheEntry T) * Z :=
  let '(m, count) := acc in
  let '(key, entry) := ke in
  if (expiry entry <=? now)%Z then (JsMap.delete key m, (count + 1)%Z)
  else (m, count).

Definition prune (c : t T) (now : Z) : Z * t T :=
  let '(m, count) := fold_left (prune_step now) (cache c) (cache c, 0%Z) in
  (count, with_cache c m).

(** [evictLRU()]: [oldest] after the scan, then the delete. *)
Definition oldest_step (oldest : option (string * Z))
    (ke : string * CacheEntry T) : option (string * Z) :=
  let '(key, entry) := ke in
  match oldest with
  | None => Some (key, lastAccessed entry)
  | Some (_, time) =>
      if (lastAccessed entry <? time)%Z then Some (key, lastAccessed entry)
      else oldest
  end.

Definition find_oldest (m : JsMap.t (CacheEntry T)) : option (string * Z) :=
  fold_left oldest_step m None.

Definition evictLRU (c : t T) : t T :=
  match find_oldest (cache c) with
  | Some (key, _) => with_cache c (JsMap.delete key (cache c))
  | None => c
  end.

(** [set(key, value, customTTL?)].  [t_prune] is the clock read inside
    [prune()], [now] the one read by [set] itself right after. *)
Definition set (c : t T) (t_prune now : Z)
    (key : string) (v : T) (customTTL : option Z) : t T :=
  let c1 := snd (prune c t_prune) in
  let ttl := match customTTL with Some d => d | None => ttl c1 end in
  let entry := {| value := v; expiry := (now + ttl)%Z; lastAccessed := now |} in
  let c2 :=
    if (JsMap.size (cache c1) >=? maxSize c1)%Z && negb (JsMap.has key (cache c1))
    then evictLRU c1 else c1 in
  with_cache c2 (JsMap.set key entry (cache c2)).

(** [get(key)]: the result and the cache it leaves. *)
Definition get (c : t T) (now : Z) (key : string) : option T * t T :=
  match JsMap.get key (cache c) with
  | None => (None, c)
  | Some entry =>
      if (expiry entry <=? now)%Z
      then (None, with_cache c (JsMap.delete key (cache c)))
      else
        let entry' := {| value := value entry; expiry := expiry entry;
                         lastAccessed := now |} in
        (Some (value entry), with_cache c (JsMap.set key entry' (cache c)))
  end.

(** [invalidatePattern(pattern)]: the loop over [this.cache.keys()]. *)
Definition invalidate_step (pattern : RegExp)
    (acc : JsMap.t (CacheEntry T) * Z) (key : string)
    : JsMap.t (CacheEntry T) * Z :=
  let '(m, count) := acc in
  if test pattern key then (JsMap.delete key m, (count + 1)%Z) else (m, count).

Definition invalidatePattern (c : t T) (pattern : RegExp) : Z * t T :=
  let '(m, count) :=
    fold_left (invalidate_step pattern) (JsMap.keys (cache c)) (cache c, 0%Z) in
  (count, with_cache c m).

Definition clear (c : t T) : t T := with_cache c JsMap.empty.

Definition size (c : t T) : Z := JsMap.size (cache c).

(** [has(key)] *)
Definition has (c : t T) (now : Z) (key : string) : bool * t T :=
  match JsMap.get key (cache c) with
  | None => (false, c)
  | Some entry =>
      if (expiry entry <=? now)%Z
      then (false, with_cache c (JsMap.delete key (cache c)))
      else (true, c)
  end.

(** A call of the public interface, with the clock readings it makes. *)
Inductive call : Type :=
| CallSet (t_prune now : Z) (key : string) (v : T) (customTTL : option Z)
| CallGet (now : Z) (key : string)
| CallHas (now : Z) (key : string)
| CallInvalidatePattern (pattern : RegExp)
| CallClear.

Definition step (c : t T) (op : call) : t T :=
  match op with
  | CallSet tp now key v customTTL => set c tp now key v customTTL
  | CallGet now key => snd (get c now key)
  | CallHas now key => snd (has c now key)
  | CallInvalidatePattern pattern => snd (invalidatePattern c pattern)
  | CallClear => clear c
  end.

Definition run (c : t T) (ops : list call) : t T := fold_left step ops c.
End Methods.

Arguments new {T} maxSize ttl.
End SmartCache.

(* ================================================================== *)
(** ** The host runtime: [RegExp] patterns

    [new RegExp(source)] for a fragment of the ECMAScript pattern syntax:
    literal characters, [.], a backslash before a syntax character, the
    greedy quantifiers [*], [+] and [?] after a one-character atom, [^] as
    first and [$] as last character.  [make] answers [None] for a source
    outside this fragment, which covers the sources the runtime rejects
    with a [SyntaxError] (a quantifier with nothing to repeat) and valid
    ones that use groups, classes, alternation, braces, lazy quantifiers
    or letter escapes.  Strings are ASCII. *)

Module JsRegExp.

Inductive atom : Type :=
| Lit (c : ascii)
| AnyChar.                       (* [.] *)

Inductive quant : Type := One | Star | Plus | Opt.

Inductive token : Type :=
| TAtom (a : atom)
| TStar | TPlus | TQuest | TCaret | TDollar.

Record regex : Type := mkRegex {
  from_start : bool;             (* source begins with [^] *)
  pieces : list (atom * quant);
  to_end : bool                  (* source ends with [$] *)
}.

Definition is_syntax_char (c : ascii) : bool :=
  existsb (Ascii.eqb c)
    (list_ascii_of_string "^$\.*+?()[]{}|/").

Fixpoint tokenize (s : list ascii) : option (list token) :=
  match s with
  | [] => Some []
  | c :: rest =>
      if Ascii.eqb c "\" then
        match rest with
        | e :: rest' =>
            if is_syntax_char e
            then option_map (cons (TAtom (Lit e))) (tokenize rest')
            else None
        | [] => None
        end
      else if Ascii.eqb c "." then option_map (cons (TAtom AnyChar)) (tokenize rest)
      else if Ascii.eqb c "*" then option_map (cons TStar) (tokenize rest)
      else if Ascii.eqb c "+" then option_map (cons TPlus) (tokenize rest)
      else if Ascii.eqb c "?" then option_map (cons TQuest) (tokenize rest)
      else if Ascii.eqb c "^" then option_map (cons TCaret) (tokenize rest)
      else if Ascii.eqb c "$" then option_map (cons TDollar) (tokenize rest)
      else if is_syntax_char c && negb (Ascii.eqb c "/") then None
      else option_map (cons (TAtom (Lit c))) (tokenize rest)
  end.

(** Atoms with their quantifier, and whether the source ends with [$]. *)
Fixpoint pieces_of (ts : list token) : option (list (atom * quant) * bool) :=
  match ts with
  | [] => Some ([], false)
  | TDollar :: [] => Some ([], true)
  | TAtom a :: ts' =>
      let push q r := option_map (fun '(ps, e) => ((a, q) :: ps, e)) r in
      match ts' with
      | TStar :: ts'' => push Star (pieces_of ts'')
      | TPlus :: ts'' => push Plus (pieces_of ts'')
      | TQuest :: ts'' => push Opt (pieces_of ts'')
      | _ => push One (pieces_of ts')
      end
  | _ => None
  end.

Definition parse (source : string) : option regex :=
  match tokenize (list_ascii_of_string source) with
  | None => None
  | Some (TCaret :: ts) =>
      option_map (fun '(ps, e) => mkRegex true ps e) (pieces_of ts)
  | Some ts =>
      option_map (fun '(ps, e) => mkRegex false ps e) (pieces_of ts)
  end.

(** [.] matches every character but a line terminator. *)
Definition accepts (a : atom) (c : ascii) : bool :=
  match a with
  | Lit c' => Ascii.eqb c c'
  | AnyChar => negb (Ascii.eqb c "010" || Ascii.eqb c "013")
  end.

(** Does a match of [ps] start at the head of [s]? *)
Fixpoint match_here (ps : list (atom * quant)) (e : bool) (s : list ascii) : bool :=
  match ps with
  | [] => if e then match s with [] => true | _ => false end else true
  | (a, q) :: ps' =>
      let star :=
        fix star (s : list ascii) : bool :=
          match_here ps' e s
          || match s with
             | c :: s' => accepts a c && star s'
             | [] => false
             end in
      match q with
      | One => match s with c :: s' => accepts a c && match_here ps' e s' | [] => false end
      | Opt => match_here ps' e s
               || match s with c :: s' => accepts a c && match_here ps' e s' | [] => false end
      | Star => star s
      | Plus => match s with c :: s' => accepts a c && star s' | [] => false end
      end
  end.

Fixpoint match_anywhere (ps : list (atom * quant)) (e : bool) (s : list ascii) : bool :=
  match_here ps e s
  || match s with
     | _ :: s' => match_anywhere ps e s'
     | [] => false
     end.

(** [RegExp.prototype.test] of a pattern without flags. *)
Definition exec (r : regex) (s : string) : bool :=
  if from_start r then match_here (pieces r) (to_end r) (list_ascii_of_string s)
  else match_anywhere (pieces r) (to_end r) (list_ascii_of_string s).

Definition make (source : string) : option SmartCache.RegExp :=
  option_map (fun r => SmartCache.mkRegExp (exec r)) (parse source).

(** A character that stands for itself in a pattern. *)
Definition plain (c : ascii) : bool :=
  negb (is_syntax_char c) || Ascii.eqb c "/".

Definition plain_key (k : string) : bool :=
  forallb plain (list_ascii_of_string k).

End JsRegExp.

(* ================================================================== *)
(** ** The host runtime: [fs/promises], [path] and the [RegExp] constructor

    What [utils.ts] and [context-manager.ts] import from the runtime, as a
    record of operations over an abstract disk.  A promise that rejects is
    [None] for a read and a [false] flag for an update (the disk returned
    with it is whatever the failed operation left behind). *)

Module Node.

Record Error : Type := mkError { message : string }.

Record host (Disk : Type) : Type := mkHost {
  fs_readFile : Disk -> string -> option string;
  fs_writeFile : Disk -> string -> string -> bool * Disk;
  fs_appendFile : Disk -> string -> string -> bool * Disk;
  fs_mkdir : Disk -> string -> bool * Disk;       (* [{ recursive: true }] *)
  path_dirname : string -> string;
  path_basename : string -> string;
  RegExp_new : string -> Error + SmartCache.RegExp  (* [inl]: it throws *)
}.
Arguments fs_readFile {Disk} h.
Arguments fs_writeFile {Disk} h.
Arguments fs_appendFile {Disk} h.
Arguments fs_mkdir {Disk} h.
Arguments path_dirname {Disk} h.
Arguments path_basename {Disk} h.
Arguments RegExp_new {Disk} h.

End Node.

(* ================================================================== *)
(** ** [src/utils.ts]

    The world threaded through the storage functions is the disk together
    with the list of storage calls made so far, most recent first; the
    list is what "no underlying I/O" is stated against.  [console.error]
    is not modelled. *)

Module Utils.
Import Node.

Inductive io_call : Type :=
| IoRead (filePath : string)
| IoWrite (filePath content : string)
| IoAppend (filePath content : string).

Record world (Disk : Type) : Type := mkWorld {
  disk : Disk;
  calls : list io_call
}.
Arguments mkWorld {Disk} disk calls.
Arguments disk {Disk} w.
Arguments calls {Disk} w.

Section Functions.
Context {Disk : Type} (h : host Disk).

Definition readFile (w : world Disk) (filePath : string)
    : (Error + string) * world Disk :=
  let w' := {| disk := disk w; calls := IoRead filePath :: calls w |} in
  match fs_readFile h (disk w) filePath with
  | Some content => (inr content, w')
  | None =>
      (inl (mkError ("Could not read file: " ++ path_basename h filePath)), w')
  end.

Definition writeFile (w : world Disk) (filePath content : string)
    : (Error + unit) * world Disk :=
  let log := IoWrite filePath content :: calls w in
  let failure :=
    inl (mkError ("Could not write to file: " ++ path_basename h filePath)) in
  let '(ok, d1) := fs_mkdir h (disk w) (path_dirname h filePath) in
  if ok then
    let '(ok', d2) := fs_writeFile h d1 filePath content in
    (if ok' then inr tt else failure, {| disk := d2; calls := log |})
  else (failure, {| disk := d1; calls := log |}).

Definition appendFile (w : world Disk) (filePath content : string)
    : (Error + unit) * world Disk :=
  let log := IoAppend filePath content :: calls w in
  let failure :=
    inl (mkError ("Could not append to file: " ++ path_basename h filePath)) in
  let '(ok, d1) := fs_mkdir h (disk w) (path_dirname h filePath) in
  if ok then
    let '(ok', d2) := fs_appendFile h d1 filePath content in
    (if ok' then inr tt else failure, {| disk := d2; calls := log |})
  else (failure, {| disk := d1; calls := log |}).
End Functions.

End Utils.

(* ================================================================== *)
(** ** [src/context-manager.ts]: the cache-backed I/O methods *)

Module ContextManager.
Import Node.

Record t : Type := mk {
  fileCache : SmartCache.t string
}.

(** [private fileCache = new SmartCache<string>(50, 10 * 60 * 1000)] *)
Definition new : t :=
  {| fileCache := SmartCache.new (Some 50%Z) (Some (10 * 60 * 1000)%Z) |}.

Section Methods.
Context {Disk : Type} (h : host Disk).

(** [_readFile(filePath)].  [t_get] is the clock read by
    [fileCache.get]; [t_prune] and [t_set] are the two read by
    [fileCache.set] when the miss path reaches it. *)
Definition _readFile (cm : t) (w : Utils.world Disk) (t_get t_prune t_set : Z)
    (filePath : string) : (Error + string) * t * Utils.world Disk :=
  let '(cachedContent, c1) := SmartCache.get (fileCache cm) t_get filePath in
  match cachedContent with
  | Some content => (inr content, {| fileCache := c1 |}, w)
  | None =>
      match Utils.readFile h w filePath with
      | (inl e, w') => (inl e, {| fileCache := c1 |}, w')
      | (inr fileContent, w') =>
          (inr fileContent,
           {| fileCache := SmartCache.set c1 t_prune t_set filePath fileContent None |},
           w')
      end
  end.

(** The statement shared by [_writeFile] and [_appendFile] after the
    storage call: [this.fileCache.invalidatePattern(new RegExp(`^${filePath}$`))]. *)
Definition invalidate_exact (cm : t) (filePath : string) : Error + t :=
  match RegExp_new h ("^" ++ filePath ++ "$") with
  | inl e => inl e
  | inr pattern =>
      inr {| fileCache := snd (SmartCache.invalidatePattern (fileCache cm) pattern) |}
  end.

Definition _writeFile (cm : t) (w : Utils.world Disk) (filePath content : string)
    : (Error + unit) * t * Utils.world Disk :=
  match Utils.writeFile h w filePath content with
  | (inl e, w') => (inl e, cm, w')
  | (inr _, w') =>
      match invalidate_exact cm filePath with
      | inl e => (inl e, cm, w')
      | inr cm' => (inr tt, cm', w')
      end
  end.

Definition _appendFile (cm : t) (w : Utils.world Disk) (filePath content : string)
    : (Error + unit) * t * Utils.world Disk :=
  match Utils.appendFile h w filePath content with
  | (inl e, w') => (inl e, cm, w')
  | (inr _, w') =>
      match invalidate_exact cm filePath with
      | inl e => (inl e, cm, w')
      | inr cm' => (inr tt, cm', w')
      end
  end.
End Methods.

End ContextManager.

(* ================================================================== *)
(** ** A concrete host for running the embedding

    An in-memory disk: a table from path to content and a list of paths
    on which every operation is refused.  Paths are POSIX; [mkdir] with
    [recursive: true] always succeeds. *)

Module MemHost.
Import Node.

Record Disk : Type := mkDisk {
  files : JsMap.t string;
  denied : list string
}.

Definition is_denied (d : Disk) (p : string) : bool :=
  existsb (String.eqb p) (denied d).

Definition readFile (d : Disk) (p : string) : option string :=
  if is_denied d p then None else JsMap.get p (files d).

Definition writeFile (d : Disk) (p content : string) : bool * Disk :=
  if is_denied d p then (false, d)
  else (true, {| files := JsMap.set p content (files d); denied := denied d |}).

Definition appendFile (d : Disk) (p content : string) : bool * Disk :=
  if is_denied d p then (false, d)
  else
    let old := match JsMap.get p (files d) with Some s => s | None => EmptyString end in
    (true, {| files := JsMap.set p (old ++ content) (files d); denied := denied d |}).

Definition mkdir (d : Disk) (p : string) : bool * Disk := (true, d).

(** The part of [p] after its last [/], and the part before it. *)
Fixpoint basename_from (acc : string) (p : string) : string :=
  match p with
  | EmptyString => acc
  | String c p' =>
      if Ascii.eqb c "/" then basename_from p' p' else basename_from acc p'
  end.

Definition basename (p : string) : string := basename_from p p.

Definition dirname (p : string) : string :=
  let n := (String.length p - String.length (basename p) - 1)%nat in
  match substring 0 n p with
  | EmptyString => if String.prefix "/" p then "/" else "."
  | s => s
  end.

Definition new_RegExp (source : string) : Error + SmartCache.RegExp :=
  match JsRegExp.make source with
  | Some r => inr r
  | None => inl (mkError ("Invalid regular expression: /" ++ source ++ "/"))
  end.

Definition host : Node.host Disk :=
  {| fs_readFile := readFile;
     fs_writeFile := writeFile;
     fs_appendFile := appendFile;
     fs_mkdir := mkdir;
     path_dirname := dirname;
     path_basename := basename;
     RegExp_new := new_RegExp |}.

Definition world0 (fs : JsMap.t string) (no : list string) : Utils.world Disk :=
  {| Utils.disk := {| files := fs; denied := no |}; Utils.calls := [] |}.

End MemHost.

(* ================================================================== *)
(** ** Vocabulary of the statements *)

Module Spec.
Import SmartCache.
Section Vocabulary.
Context {T : Type}.

(** The entry is logically expired at [now]. *)
Definition expired (now : Z) (ke : string * CacheEntry T) : bool :=
  (expiry (snd ke) <=? now)%Z.

(** Going from the swept store [m1] to the store [m'] left by
    [set(key, ...)], exactly one entry was evicted: some [victim] bound
    in [m1] with the least [lastAccessed] of [m1] is unbound in [m'],
    every key other than [victim] and [key] is bound as before, and
    with [key] added the count is that of [m1]. *)
Definition evicts_one_lru (m1 : JsMap.t (CacheEntry T)) (key : string)
    (m' : JsMap.t (CacheEntry T)) : Prop :=
  exists victim ve,
    JsMap.get victim m1 = Some ve
    /\ (forall k' e', JsMap.get k' m1 = Some e' ->
                      (lastAccessed ve <= lastAccessed e')%Z)
    /\ JsMap.get victim m' = None
    /\ (forall k', k' <> key -> k' <> victim -> JsMap.get k' m' = JsMap.get k' m1)
    /\ JsMap.size m' = JsMap.size m1.

(** Every binding of [key] in the store is expired at [now]. *)
Definition key_expired (key : string) (now : Z) (c : SmartCache.t T) : Prop :=
  forall e, In (key, e) (cache c) -> (expiry e <= now)%Z.

(** The call is a [set] on [key]. *)
Definition is_set_of (key : string) (op : @call T) : bool :=
  match op with
  | CallSet _ _ k _ _ => String.eqb k key
  | _ => false
  end.
End Vocabulary.
End Spec.

(* ================================================================== *)
(** ** Concrete stores and scenarios *)

Module Examples.
Import SmartCache.

Definition entry (v : string) (expiry lastAccessed : Z) : CacheEntry string :=
  {| value := v; expiry := expiry; lastAccessed := lastAccessed |}.

(** [new SmartCache(0, 1000)] *)
Definition cache_cap0 : SmartCache.t string := SmartCache.new (Some 0%Z) (Some 1000%Z).

(** [new SmartCache(2, 1000)] after [set("a","1")] at time 0 and
    [set("b","2")] at time 1. *)
Definition cache_ab : SmartCache.t string :=
  run (SmartCache.new (Some 2%Z) (Some 1000%Z))
      [CallSet 0 0 "a" "1" None; CallSet 1 1 "b" "2" None].

(** [new SmartCache(1000, 100)] after [set("x","v")] at time 0. *)
Definition cache_x : SmartCache.t string :=
  run (SmartCache.new None (Some 100%Z)) [CallSet 0 0 "x" "v" None].

(** A store of three entries, the first of which expires at time 5. *)
Definition cache_mixed : SmartCache.t string :=
  {| cache := [("old.md", entry "o" 5 0); ("a.md", entry "a" 100 1);
               ("b.txt", entry "b" 100 2)];
     maxSize := 10; ttl := 1000 |}.

(** Three entries, the last two accessed at the same, earliest time. *)
Definition cache_tie : SmartCache.t string :=
  {| cache := [("p", entry "1" 100 9); ("q", entry "2" 100 4); ("r", entry "3" 100 4)];
     maxSize := 3; ttl := 1000 |}.

(** Keys that end with [.md]. *)
Definition ends_md : RegExp :=
  {| test := fun key =>
       match JsRegExp.make "\.md$" with
       | Some r => test r key
       | None => false
       end |}.

(** The scenario of the specification on the in-memory host, from a fresh
    manager and an empty disk: [write(key, "A")], [read(key)] at time 1,
    [write(key, "B")], [read(key)] at time 2.  The result is what the
    first read, the second write and the second read returned, and what
    the disk holds under [key] at the end. *)
Definition write_read_write_read (key : string)
    : (Node.Error + string) * (Node.Error + unit) * (Node.Error + string)
      * option string :=
  let '(_, cm1, w1) :=
    ContextManager._writeFile MemHost.host ContextManager.new
      (MemHost.world0 [] []) key "A" in
  let '(r2, cm2, w2) := ContextManager._readFile MemHost.host cm1 w1 1 1 1 key in
  let '(r3, cm3, w3) := ContextManager._writeFile MemHost.host cm2 w2 key "B" in
  let '(r4, _, w4) := ContextManager._readFile MemHost.host cm3 w3 2 2 2 key in
  (r2, r3, r4, MemHost.readFile (Utils.disk w4) key).

(** The state file of a project whose directory is [/w/a+b], and of one
    whose directory is [/w/ab]. *)
Definition state_file_plus : string := "/w/a+b/.context/CURRENT_STATE.md".
Definition state_file_plain : string := "/w/ab/.context/CURRENT_STATE.md".

(** A manager whose cache holds [f.md] (live until time 100) and
    [stale.md] (expired at time 5). *)
Definition manager_f : ContextManager.t :=
  {| ContextManager.fileCache :=
       {| cache := [("f.md", entry "cached" 100 0); ("stale.md", entry "s" 5 0)];
          maxSize := 50; ttl := 600000 |} |}.

(** A manager whose cache holds the state file of a project in [/w] and
    a file whose path differs from it where the former has dots. *)
Definition manager_dots : ContextManager.t :=
  {| ContextManager.fileCache :=
       {| cache := [("/w/.context/CURRENT_STATE.md", entry "state" 100 0);
                    ("/w/xcontext/CURRENT_STATE-md", entry "other" 100 0)];
          maxSize := 50; ttl := 600000 |} |}.

(** A disk holding [g.md] and [stale.md], on which [locked.md] is refused. *)
Definition world_g : Utils.world MemHost.Disk :=
  MemHost.world0 [("g.md", "on disk"); ("stale.md", "fresh")] ["locked.md"].
End Examples.

(* ================================================================== *)
(** ** Further vocabulary: calls and patterns *)

Module Calls.
Import SmartCache.
Section Vocabulary.
Context {T : Type}.

(** The call is a [get] on [key]. *)
Definition is_get_of (key : string) (op : @call T) : bool :=
  match op with
  | CallGet _ k => String.eqb k key
  | _ => false
  end.

(** The TTL a [set] applies: [customTTL !== undefined ? customTTL : this.ttl]. *)
Definition effective_ttl (c : SmartCache.t T) (customTTL : option Z) : Z :=
  match customTTL with Some d => d | None => ttl c end.

(** The entry a [set] at clock value [now] stores. *)
Definition fresh_entry (c : SmartCache.t T) (now : Z) (v : T)
    (customTTL : option Z) : CacheEntry T :=
  {| value := v; expiry := now + effective_ttl c customTTL; lastAccessed := now |}.
End Vocabulary.

(** A pattern that matches what [p] or [q] matches (the alternation). *)
Definition either (p q : RegExp) : RegExp :=
  {| test := fun key => test p key || test q key |}.
End Calls.

(* ================================================================== *)
(** ** [src/context-manager.ts]: the context files

    The methods that build and store the context files one at a time.
    They need three more things from the runtime: [fs.access] (through
    [fileExists] of [utils.ts]), [path.join], and the value [fs.mkdir]
    rejects with when it is called outside [utils.ts].  [contextDir] is
    [path.join(process.cwd(), '.context')], fixed at construction. *)

Module HostMore.
Record ops (Disk : Type) : Type := mkOps {
  fs_access : Disk -> string -> bool;               (* [true]: it resolves *)
  fs_mkdir_rejection : Disk -> string -> Node.Error;
  path_join : string -> string -> string
}.
Arguments fs_access {Disk} o.
Arguments fs_mkdir_rejection {Disk} o.
Arguments path_join {Disk} o.
End HostMore.

Module ContextFiles.
Import Node HostMore.

(** The arguments of [context_update], in the shape its [inputSchema]
    declares: a summary and three optional lists of strings. *)
Record UpdateArgs : Type := mkArgs {
  summary : string;
  completed : option (list string);
  next : option (list string);
  decisions : option (list string)
}.

Definition nl : string := String "010" EmptyString.

(** [Array.prototype.join] on strings. *)
Definition join (sep : string) (xs : list string) : string := String.concat sep xs.

(** [xs?.length ? xs.map(t => `${mark}${t}`).join('\n') : fallback] *)
Definition bullets (mark : string) (xs : option (list string)) (fallback : string)
    : string :=
  match xs with
  | Some (x :: l) => join nl (map (fun t => mark ++ t) (x :: l))
  | _ => fallback
  end.

(** [xs?.join(', ') || 'N/A']: an empty string is falsy. *)
Definition joined_or_na (xs : option (list string)) : string :=
  match xs with
  | Some l => match join ", " l with EmptyString => "N/A" | s => s end
  | None => "N/A"
  end.

(** [args.next?.[0] || 'Define the next immediate task.'] *)
Definition immediate_focus (args : UpdateArgs) : string :=
  match next args with
  | Some (String c s :: _) => String c s
  | _ => "Define the next immediate task."
  end.

(** The content [updateCurrentStateFile] writes. *)
Definition currentStateContent (args : UpdateArgs) (timestamp : string) : string :=
  "# CURRENT STATE" ++ nl ++
  "## Last Updated: " ++ timestamp ++ nl ++
  nl ++
  "### Summary of Last Session" ++ nl ++
  summary args ++ nl ++
  nl ++
  "### Completed Tasks" ++ nl ++
  bullets "- ✅ " (completed args) "N/A" ++ nl ++
  nl ++
  "### Next Steps" ++ nl ++
  bullets "- 🎯 " (next args) "To be planned." ++ nl ++
  nl ++
  "### Recent Decisions" ++ nl ++
  bullets "- 📝 " (decisions args) "N/A" ++ nl.

(** The content [updateActiveContextFile] writes. *)
Definition activeContextContent (args : UpdateArgs) (timestamp : string) : string :=
  "# ACTIVE CONTEXT (For Quick Reference)" ++ nl ++
  "## Updated: " ++ timestamp ++ nl ++
  nl ++
  "## Immediate Focus" ++ nl ++
  immediate_focus args ++ nl ++
  nl ++
  "## Summary" ++ nl ++
  summary args ++ nl.

(** The entry [logSessionToFile] appends. *)
Definition sessionLogEntry (args : UpdateArgs) (timestamp : string) : string :=
  nl ++
  "---" ++ nl ++
  "## SESSION LOG: " ++ timestamp ++ nl ++
  "**Summary:** " ++ summary args ++ nl ++
  "**Completed:** " ++ joined_or_na (completed args) ++ nl ++
  "**Decisions:** " ++ joined_or_na (decisions args) ++ nl.


Section Methods.
Context {Disk : Type} (h : host Disk) (x : ops Disk) (contextDir : string).


Definition updateCurrentStateFile (cm : ContextManager.t) (w : Utils.world Disk)
    (args : UpdateArgs) (timestamp : string)
    : (Error + unit) * ContextManager.t * Utils.world Disk :=
  ContextManager._writeFile h cm w (path_join x contextDir "CURRENT_STATE.md")
    (currentStateContent args timestamp).

Definition updateActiveContextFile (cm : ContextManager.t) (w : Utils.world Disk)
    (args : UpdateArgs) (timestamp : string)
    : (Error + unit) * ContextManager.t * Utils.world Disk :=
  ContextManager._writeFile h cm w (path_join x contextDir "ACTIVE_CONTEXT.md")
    (activeContextContent args timestamp).

Definition logSessionToFile (cm : ContextManager.t) (w : Utils.world Disk)
    (args : UpdateArgs) (timestamp : string)
    : (Error + unit) * ContextManager.t * Utils.world Disk :=
  ContextManager._appendFile h cm w (path_join x contextDir "SESSION_LOG.md")
    (sessionLogEntry args timestamp).

End Methods.
End ContextFiles.

(** The in-memory host, continued: a path exists when it is in the table
    and not refused; [path.join] of two POSIX segments. *)
Module MemHostMore.
Definition access (d : MemHost.Disk) (p : string) : bool :=
  negb (MemHost.is_denied d p) && JsMap.has p (MemHost.files d).

Definition ops : HostMore.ops MemHost.Disk :=
  {| HostMore.fs_access := access;
     HostMore.fs_mkdir_rejection := fun _ p => Node.mkError ("EACCES: " ++ p);
     HostMore.path_join := fun a b => a ++ "/" ++ b |}.

(** A disk that already holds a project DNA. *)
Definition world_dna : Utils.world MemHost.Disk :=
  MemHost.world0 [("/w/.context/PROJECT_DNA.md", "my dna")] [].

Definition args_empty : ContextFiles.UpdateArgs :=
  {| ContextFiles.summary := "done";
     ContextFiles.completed := Some [""];
     ContextFiles.next := Some [""; "later"];
     ContextFiles.decisions := None |}.
End MemHostMore.

(* ================================================================== *)
(** ** [invalidatePattern] on a [RegExp] object with flags

    [invalidatePattern(pattern: RegExp)] takes any [RegExp].  One built
    with the [g] or the [y] flag is stateful: [test] starts at its
    [lastIndex] and updates it.  A [RegExp] object is modelled here by its
    flags, its [lastIndex] and the search its pattern performs;
    [invalidatePattern] is embedded again over such objects and threads
    the object through the loop.  On an object without flags it is
    [SmartCache.invalidatePattern] (lemma
    [StatefulFacts.invalidatePattern_flagless]). *)

Module StatefulPattern.
Import SmartCache.

(** [search S i] is the end index of the match the pattern finds in [S]
    when the search starts at index [i] (forward from [i]; at [i] only
    for a sticky pattern), or [None] when it finds none. *)
Record RegExpObject : Type := mkObject {
  search : string -> nat -> option nat;
  global : bool;
  sticky : bool;
  lastIndex : nat
}.

Definition with_lastIndex (p : RegExpObject) (i : nat) : RegExpObject :=
  {| search := search p; global := global p; sticky := sticky p; lastIndex := i |}.

(** [RegExp.prototype.test(S)], that is [RegExpBuiltinExec] seen through
    its boolean result: without [g] and [y] the search starts at 0 and
    [lastIndex] is left alone; otherwise it starts at [lastIndex], which
    becomes the end index of the match, or 0 when there is none or when
    [lastIndex] exceeds the length of [S]. *)
Definition test (p : RegExpObject) (S : string) : bool * RegExpObject :=
  if global p || sticky p then
    if (String.length S <? lastIndex p)%nat then (false, with_lastIndex p 0)
    else
      match search p S (lastIndex p) with
      | Some e => (true, with_lastIndex p e)
      | None => (false, with_lastIndex p 0)
      end
  else
    (match search p S 0 with Some _ => true | None => false end, p).

(** The key matches the pattern: a search from its start finds a match. *)
Definition matches (p : RegExpObject) (key : string) : bool :=
  match search p key 0 with Some _ => true | None => false end.

Definition flagless (p : RegExpObject) : bool := negb (global p || sticky p).

(** The [test] of a pattern without flags, as a function of the key. *)
Definition as_function (p : RegExpObject) : RegExp := {| SmartCache.test := matches p |}.

Section Methods.
Context {T : Type}.

(** The body of the loop of [invalidatePattern]; the pattern object is
    part of the state. *)
Definition invalidate_step
    (acc : JsMap.t (CacheEntry T) * Z * RegExpObject) (key : string)
    : JsMap.t (CacheEntry T) * Z * RegExpObject :=
  let '(m, count, pattern) := acc in
  let '(found, pattern') := test pattern key in
  if found then (JsMap.delete key m, (count + 1)%Z, pattern')
  else (m, count, pattern').

(** [invalidatePattern(pattern)]: the count returned, the cache and the
    pattern object it leaves. *)
Definition invalidatePattern (c : SmartCache.t T) (pattern : RegExpObject)
    : Z * SmartCache.t T * RegExpObject :=
  let '(m, count, pattern') :=
    fold_left invalidate_step (JsMap.keys (cache c)) (cache c, 0%Z, pattern) in
  (count, with_cache c m, pattern').
End Methods.

(** [new RegExp(source)] and, with [g] set, [new RegExp(source, 'g')] for
    a source of the fragment of [JsRegExp] that ends with [$] and does
    not begin with [^] ([None] for any other source).  Every
    match of such a pattern ends where the string ends, so a search from
    index [i] answers the length of the string when some suffix that
    starts at [i] or later is matched by the pieces. *)
Definition search_to_end (r : JsRegExp.regex) (S : string) (i : nat) : option nat :=
  if JsRegExp.match_anywhere (JsRegExp.pieces r) true
       (skipn i (list_ascii_of_string S))
  then Some (String.length S) else None.

Definition new_RegExp (source : string) (g : bool) : option RegExpObject :=
  match JsRegExp.parse source with
  | Some r =>
      if JsRegExp.to_end r && negb (JsRegExp.from_start r)
      then Some {| search := search_to_end r; global := g; sticky := false;
                   lastIndex := 0 |}
      else None
  | None => None
  end.
End StatefulPattern.

(** Patterns and stores for the examples with flags. *)
Module PatternExamples.
Import SmartCache.

(** The parsed form of the source [\.md$]. *)
Definition md_regex : JsRegExp.regex :=
  {| JsRegExp.from_start := false;
     JsRegExp.pieces := [(JsRegExp.Lit ".", JsRegExp.One);
                         (JsRegExp.Lit "m", JsRegExp.One);
                         (JsRegExp.Lit "d", JsRegExp.One)];
     JsRegExp.to_end := true |}.

(** [/\.md$/] and [/\.md$/g], as just constructed. *)
Definition md_plain : StatefulPattern.RegExpObject :=
  {| StatefulPattern.search := StatefulPattern.search_to_end md_regex;
     StatefulPattern.global := false; StatefulPattern.sticky := false;
     StatefulPattern.lastIndex := 0 |}.

Definition md_global : StatefulPattern.RegExpObject :=
  {| StatefulPattern.search := StatefulPattern.search_to_end md_regex;
     StatefulPattern.global := true; StatefulPattern.sticky := false;
     StatefulPattern.lastIndex := 0 |}.

(** [/\.txt$/]. *)
Definition txt_plain : StatefulPattern.RegExpObject :=
  {| StatefulPattern.search := StatefulPattern.search_to_end
       {| JsRegExp.from_start := false;
          JsRegExp.pieces := [(JsRegExp.Lit ".", JsRegExp.One);
                              (JsRegExp.Lit "t", JsRegExp.One);
                              (JsRegExp.Lit "x", JsRegExp.One);
                              (JsRegExp.Lit "t", JsRegExp.One)];
          JsRegExp.to_end := true |};
     StatefulPattern.global := false; StatefulPattern.sticky := false;
     StatefulPattern.lastIndex := 0 |}.

(** A pattern without flags whose searches succeed where those of
    [md_plain] or of [txt_plain] do, as [/\.md$|\.txt$/] does. *)
Definition md_or_txt : StatefulPattern.RegExpObject :=
  {| StatefulPattern.search := fun S i =>
       match StatefulPattern.search md_plain S i with
       | Some e => Some e
       | None => StatefulPattern.search txt_plain S i
       end;
     StatefulPattern.global := false; StatefulPattern.sticky := false;
     StatefulPattern.lastIndex := 0 |}.

(** A live entry followed by one that expired at time 5; both keys end
    with [.md]. *)
Definition cache_live_then_expired : SmartCache.t string :=
  {| cache := [("aa.md", Examples.entry "a" 100 1);
               ("old.md", Examples.entry "o" 5 0)];
     maxSize := 10; ttl := 1000 |}.
End PatternExamples.

(* ================================================================== *)
(** * Properties *)

(** ** Facts about the [Map] operations *)

Module JsMapFacts.
Import JsMap.
Section Facts.
Context {V : Type}.
Implicit Types (m : JsMap.t V) (k : string) (v : V).

Lemma delete_filter k m :
  delete k m = filter (fun kv => negb (String.eqb k (fst kv))) m.
Proof.
  induction m as [|[k' v'] m IH]; simpl; [reflexivity|].
  destruct (String.eqb k k'); simpl; now rewrite IH.
Qed.

Lemma get_In k v m : get k m = Some v -> In (k, v) m.
Proof.
  induction m as [|[k' v'] m IH]; simpl; [discriminate|].
  destruct (String.eqb_spec k k') as [->|]; intros H.
  - injection H as ->. now left.
  - right. now apply IH.
Qed.

Lemma get_None_iff k m : get k m = None <-> ~ In k (keys m).
Proof.
  induction m as [|[k' v'] m IH]; simpl; [tauto|].
  destruct (String.eqb_spec k k') as [->|Hne].
  - split; [discriminate|]. intros H. exfalso. apply H. now left.
  - rewrite IH. split; intros H; [intros [E|E]; [now subst|tauto] | tauto].
Qed.

Lemma has_true_iff k m : has k m = true <-> In k (keys m).
Proof.
  unfold has. destruct (get k m) eqn:E.
  - split; [intros _|reflexivity].
    apply get_In in E. change k with (fst (k, v)). now apply in_map.
  - apply get_None_iff in E. split; [discriminate|tauto].
Qed.

Lemma has_false_iff k m : has k m = false <-> ~ In k (keys m).
Proof.
  rewrite <- has_true_iff. destruct (has k m); split; congruence.
Qed.

Lemma In_get k v m : wf m -> In (k, v) m -> get k m = Some v.
Proof.
  unfold wf. induction m as [|[k' v'] m IH]; simpl; [tauto|].
  intros Hnd [E|Hin]; inversion Hnd as [|? ? Hnotin Hnd']; subst.
  - injection E as -> ->. now rewrite String.eqb_refl.
  - destruct (String.eqb_spec k k') as [->|]; [|now apply IH].
    exfalso. apply Hnotin. change k' with (fst (k', v)). now apply in_map.
Qed.

Lemma get_set_same k v m : get k (set k v m) = Some v.
Proof.
  induction m as [|[k' v'] m IH]; simpl.
  - now rewrite String.eqb_refl.
  - destruct (String.eqb k k') eqn:E; simpl; rewrite ?String.eqb_refl, ?E; auto.
Qed.

Lemma get_set_other k k' v m : k' <> k -> get k' (set k v m) = get k' m.
Proof.
  intros Hne. induction m as [|[k0 v0] m IH]; simpl.
  - apply String.eqb_neq in Hne. now rewrite Hne.
  - destruct (String.eqb_spec k k0) as [->|]; simpl.
    + apply String.eqb_neq in Hne. now rewrite Hne.
    + now rewrite IH.
Qed.

Lemma get_delete_same k m : get k (delete k m) = None.
Proof.
  induction m as [|[k' v'] m IH]; simpl; [reflexivity|].
  destruct (String.eqb k k') eqn:E; simpl; rewrite ?E; auto.
Qed.

Lemma get_delete_other k k' m : k' <> k -> get k' (delete k m) = get k' m.
Proof.
  intros Hne. induction m as [|[k0 v0] m IH]; simpl; [reflexivity|].
  destruct (String.eqb_spec k k0) as [->|]; simpl.
  - apply String.eqb_neq in Hne. now rewrite Hne.
  - now rewrite IH.
Qed.

Lemma keys_set_present k v m : In k (keys m) -> keys (set k v m) = keys m.
Proof.
  induction m as [|[k' v'] m IH]; simpl; [tauto|].
  destruct (String.eqb_spec k k') as [->|Hne]; simpl; [reflexivity|].
  intros [E|Hin]; [congruence|]. f_equal. now apply IH.
Qed.

Lemma keys_set_absent k v m :
  ~ In k (keys m) -> keys (set k v m) = (keys m ++ [k])%list.
Proof.
  induction m as [|[k' v'] m IH]; simpl; [reflexivity|].
  destruct (String.eqb_spec k k') as [->|Hne]; simpl; [tauto|].
  intros H. f_equal. apply IH. tauto.
Qed.

Lemma set_absent k v m : ~ In k (keys m) -> set k v m = (m ++ [(k, v)])%list.
Proof.
  induction m as [|[k' v'] m IH]; simpl; [reflexivity|].
  destruct (String.eqb_spec k k') as [->|Hne]; simpl; [tauto|].
  intros H. f_equal. apply IH. tauto.
Qed.

Lemma size_keys m : size m = Z.of_nat (List.length (keys m)).
Proof. unfold size, keys. now rewrite length_map. Qed.

Lemma size_set_present k v m : In k (keys m) -> size (set k v m) = size m.
Proof. intros H. now rewrite !size_keys, keys_set_present. Qed.

Lemma size_set_absent k v m : ~ In k (keys m) -> size (set k v m) = (size m + 1)%Z.
Proof.
  intros H. rewrite !size_keys, keys_set_absent, length_app by assumption.
  simpl. lia.
Qed.

Lemma size_set_le k v m : (size (set k v m) <= size m + 1)%Z.
Proof.
  destruct (in_dec string_dec k (keys m)) as [H|H].
  - rewrite size_set_present by assumption. lia.
  - rewrite size_set_absent by assumption. lia.
Qed.

Lemma size_nonneg m : (0 <= size m)%Z.
Proof. unfold size. lia. Qed.

Lemma size_filter_le (f : string * V -> bool) m : (size (filter f m) <= size m)%Z.
Proof. unfold size. pose proof (filter_length_le f m). lia. Qed.

Lemma size_delete_le k m : (size (delete k m) <= size m)%Z.
Proof. rewrite delete_filter. apply size_filter_le. Qed.

Lemma length_delete_present k m :
  In k (keys m) -> (List.length (delete k m) < List.length m)%nat.
Proof.
  induction m as [|[k' v'] m IH]; simpl; [tauto|].
  destruct (String.eqb_spec k k') as [->|Hne].
  - intros _. pose proof (size_delete_le k' m) as H. unfold size in H. lia.
  - intros [E|Hin]; [congruence|]. simpl. specialize (IH Hin). lia.
Qed.

Lemma size_delete_present k m :
  In k (keys m) -> (size (delete k m) <= size m - 1)%Z.
Proof. intros H. apply length_delete_present in H. unfold size. lia. Qed.

Lemma delete_absent k m : ~ In k (keys m) -> delete k m = m.
Proof.
  induction m as [|[k' v'] m IH]; simpl; [reflexivity|].
  destruct (String.eqb_spec k k') as [->|Hne]; [tauto|].
  intros H. f_equal. apply IH. tauto.
Qed.

Lemma length_delete_wf k m :
  wf m -> In k (keys m) -> S (List.length (delete k m)) = List.length m.
Proof.
  unfold wf. induction m as [|[k' v'] m IH]; simpl; [tauto|].
  intros Hnd Hin. inversion Hnd as [|? ? Hnotin Hnd']; subst.
  destruct (String.eqb_spec k k') as [->|Hne].
  - now rewrite delete_absent.
  - destruct Hin as [E|Hin]; [congruence|]. simpl.
    now rewrite (IH Hnd' Hin).
Qed.

Lemma size_delete_wf k m :
  wf m -> In k (keys m) -> size (delete k m) = (size m - 1)%Z.
Proof. intros Hw H. pose proof (length_delete_wf k m Hw H) as E. unfold size. lia. Qed.

Lemma keys_filter_incl (f : string * V -> bool) m k :
  In k (keys (filter f m)) -> In k (keys m).
Proof.
  unfold keys. rewrite !in_map_iff. intros [kv [E Hin]].
  apply filter_In in Hin. exists kv. tauto.
Qed.

Lemma wf_filter (f : string * V -> bool) m : wf m -> wf (filter f m).
Proof.
  unfold wf. induction m as [|kv m IH]; simpl; [auto|].
  intros Hnd. inversion Hnd as [|? ? Hnotin Hnd']; subst.
  destruct (f kv); simpl; [|auto].
  constructor; [|auto]. intros H. apply Hnotin. eapply keys_filter_incl, H.
Qed.

Lemma wf_delete k m : wf m -> wf (delete k m).
Proof. rewrite delete_filter. apply wf_filter. Qed.

Lemma wf_set k v m : wf m -> wf (set k v m).
Proof.
  unfold wf. intros Hnd. destruct (in_dec string_dec k (keys m)) as [H|H].
  - now rewrite keys_set_present.
  - rewrite keys_set_absent by assumption.
    apply NoDup_app; [assumption | repeat constructor; simpl; tauto |].
    intros x Hx [<-|[]]. tauto.
Qed.

Lemma wf_empty : wf (@empty V).
Proof. constructor. Qed.

Lemma get_filter_keys (p : string -> bool) m k :
  get k (filter (fun kv => p (fst kv)) m) = if p k then get k m else None.
Proof.
  induction m as [|[k' v'] m IH]; simpl; [now destruct (p k)|].
  destruct (p k') eqn:Hp; simpl.
  - destruct (String.eqb_spec k k') as [->|]; [now rewrite Hp | exact IH].
  - rewrite IH. destruct (String.eqb_spec k k') as [->|]; [now rewrite Hp | reflexivity].
Qed.

Lemma In_set_other k k' v v' m : In (k', v') (set k v m) -> k' <> k -> In (k', v') m.
Proof.
  intros H Hne. induction m as [|[k0 v0] m IH]; simpl in H.
  - destruct H as [E|[]]. congruence.
  - destruct (String.eqb_spec k k0) as [->|]; simpl in H.
    + destruct H as [E|H]; [congruence | now right].
    + destruct H as [E|H]; [now left | right; auto].
Qed.

Lemma In_set_other_intro k k' v v' m :
  In (k', v') m -> k' <> k -> In (k', v') (set k v m).
Proof.
  intros H Hne. induction m as [|[k0 v0] m IH]; simpl in *; [tauto|].
  destruct (String.eqb_spec k k0) as [->|]; simpl.
  - destruct H as [E|H]; [congruence | now right].
  - destruct H as [E|H]; [now left | right; auto].
Qed.

Lemma In_set k k' v v' m :
  In (k', v') (set k v m) -> (k', v') = (k, v) \/ In (k', v') m.
Proof.
  induction m as [|[k0 v0] m IH]; simpl.
  - intros [E|[]]. now left.
  - destruct (String.eqb_spec k k0) as [->|]; simpl.
    + intros [E|H]; [now left | right; now right].
    + intros [E|H]; [right; now left|]. destruct (IH H); [now left | right; now right].
Qed.

Lemma In_delete k k' v' m : In (k', v') (delete k m) -> In (k', v') m.
Proof. rewrite delete_filter. intros H. now apply filter_In in H. Qed.

Lemma keys_delete_incl k k' m : In k' (keys (delete k m)) -> In k' (keys m).
Proof. rewrite delete_filter. apply keys_filter_incl. Qed.
End Facts.
End JsMapFacts.

(** ** Facts about the cache methods *)

Module SmartCacheFacts.
Import SmartCache JsMapFacts Spec.

Section Facts.
Context {T : Type}.
Implicit Types (c : SmartCache.t T) (m : JsMap.t (CacheEntry T)).
Implicit Types (k key : string) (e : CacheEntry T) (now : Z).

Lemma filter_filter {A} (f g : A -> bool) (l : list A) :
  filter f (filter g l) = filter (fun x => g x && f x) l.
Proof.
  induction l as [|x l IH]; simpl; [reflexivity|].
  destruct (g x); simpl; [destruct (f x)|]; now rewrite IH.
Qed.

(** *** The deleting loops are filters *)

Lemma invalidate_loop (p : RegExp) (l : list string) m (n : Z) :
  fold_left (invalidate_step p) l (m, n) =
  (filter (fun kv => negb (existsb (fun k => test p k && String.eqb k (fst kv)) l)) m,
   (n + Z.of_nat (List.length (filter (test p) l)))%Z).
Proof.
  revert m n. induction l as [|k l IH]; intros m n; simpl.
  - f_equal; [|lia]. induction m as [|kv m IHm]; simpl; congruence.
  - destruct (test p k) eqn:Hp; simpl; rewrite IH.
    + f_equal; [|simpl List.length; lia].
      rewrite delete_filter, filter_filter. apply filter_ext.
      intros kv. now rewrite negb_orb.
    + reflexivity.
Qed.

Lemma prune_loop now (l : list (string * CacheEntry T)) m (n : Z) :
  fold_left (prune_step now) l (m, n) =
  (filter (fun kv =>
     negb (existsb (fun ke => expired now ke && String.eqb (fst ke) (fst kv)) l)) m,
   (n + Z.of_nat (List.length (filter (expired now) l)))%Z).
Proof.
  revert m n. induction l as [|[k e] l IH]; intros m n; simpl.
  - f_equal; [|lia]. induction m as [|kv m IHm]; simpl; congruence.
  - destruct (expiry e <=? now)%Z eqn:He; rewrite IH;
      change (expired now (k, e)) with (expiry e <=? now)%Z; rewrite He.
    + f_equal; [|simpl List.length; lia].
      rewrite delete_filter, filter_filter. apply filter_ext.
      intros kv. simpl. now rewrite negb_orb.
    + reflexivity.
Qed.

Lemma wf_In_unique m k e e' :
  JsMap.wf m -> In (k, e) m -> In (k, e') m -> e = e'.
Proof.
  intros Hw H H'. apply (In_get k e m Hw) in H. apply (In_get k e' m Hw) in H'.
  congruence.
Qed.

(** *** [invalidatePattern] *)

Lemma invalidatePattern_filter c (p : RegExp) :
  invalidatePattern c p =
  (Z.of_nat (List.length (filter (test p) (JsMap.keys (cache c)))),
   with_cache c (filter (fun kv => negb (test p (fst kv))) (cache c))).
Proof.
  unfold invalidatePattern. rewrite invalidate_loop. simpl. f_equal. f_equal.
  apply filter_ext_in. intros [k e] Hin. simpl. f_equal.
  destruct (test p k) eqn:Hp.
  - apply existsb_exists. exists k. rewrite Hp, String.eqb_refl. split; [|reflexivity].
    change k with (fst (k, e)). now apply in_map.
  - destruct (existsb _ _) eqn:Hex; [|reflexivity].
    apply existsb_exists in Hex. destruct Hex as [k' [_ Hk']].
    apply andb_prop in Hk'. destruct Hk' as [Hp' E].
    apply String.eqb_eq in E. congruence.
Qed.

Lemma length_filter_keys (p : string -> bool) m :
  List.length (filter p (JsMap.keys m)) = List.length (filter (fun kv => p (fst kv)) m).
Proof.
  induction m as [|[k e] m IH]; simpl; [reflexivity|].
  destruct (p k); simpl; now rewrite IH.
Qed.

Lemma length_filter_split {A} (f : A -> bool) (l : list A) :
  (List.length (filter f l) + List.length (filter (fun x => negb (f x)) l))%nat
  = List.length l.
Proof.
  induction l as [|x l IH]; simpl; [reflexivity|].
  destruct (f x); simpl; lia.
Qed.

(** *** [prune] *)

Lemma prune_filter c now :
  JsMap.wf (cache c) ->
  prune c now =
  (Z.of_nat (List.length (filter (expired now) (cache c))),
   with_cache c (filter (fun ke => negb (expired now ke)) (cache c))).
Proof.
  intros Hw. unfold prune. rewrite prune_loop. simpl. f_equal. f_equal.
  apply filter_ext_in. intros [k e] Hin. simpl. f_equal.
  destruct (expired now (k, e)) eqn:He.
  - apply existsb_exists. exists (k, e). simpl. now rewrite He, String.eqb_refl.
  - destruct (existsb _ _) eqn:Hex; [|reflexivity].
    apply existsb_exists in Hex. destruct Hex as [[k' e'] [Hin' Hk']].
    apply andb_prop in Hk'. destruct Hk' as [He' E]. simpl in E.
    apply String.eqb_eq in E. subst k'.
    rewrite (wf_In_unique _ _ _ _ Hw Hin Hin') in He. congruence.
Qed.

Lemma prune_cache c now :
  exists f, cache (snd (prune c now)) = filter f (cache c).
Proof.
  unfold prune. rewrite prune_loop. simpl. eauto.
Qed.

Lemma prune_In c now k e :
  In (k, e) (cache (snd (prune c now))) ->
  In (k, e) (cache c) /\ (now < expiry e)%Z.
Proof.
  unfold prune. rewrite prune_loop. simpl. intros H.
  apply filter_In in H. destruct H as [Hin H]. split; [assumption|].
  apply negb_true_iff in H.
  destruct (Z.leb_spec (expiry e) now) as [Hle|]; [|assumption].
  exfalso. apply not_true_iff_false in H. apply H.
  apply existsb_exists. exists (k, e). split; [assumption|].
  unfold expired. simpl. rewrite String.eqb_refl, andb_true_r. now apply Z.leb_le.
Qed.

Lemma prune_size_le c now : (size (snd (prune c now)) <= size c)%Z.
Proof.
  destruct (prune_cache c now) as [f E]. unfold size. rewrite E.
  apply size_filter_le.
Qed.

Lemma prune_wf c now : JsMap.wf (cache c) -> JsMap.wf (cache (snd (prune c now))).
Proof.
  destruct (prune_cache c now) as [f E]. rewrite E. apply wf_filter.
Qed.

Lemma prune_maxSize c now : maxSize (snd (prune c now)) = maxSize c.
Proof. unfold prune. now destruct (fold_left _ _ _). Qed.

Lemma prune_ttl c now : ttl (snd (prune c now)) = ttl c.
Proof. unfold prune. now destruct (fold_left _ _ _). Qed.
End Facts.
End SmartCacheFacts.

(** ** Facts about eviction and insertion *)

Module EvictionFacts.
Import SmartCache JsMapFacts SmartCacheFacts Spec.

Section Facts.
Context {T : Type}.
Implicit Types (c : SmartCache.t T) (m : JsMap.t (CacheEntry T)).
Implicit Types (k key : string) (e : CacheEntry T).

Lemma oldest_loop_some (l : list (string * CacheEntry T)) x :
  exists y, fold_left oldest_step l (Some x) = Some y.
Proof.
  revert x. induction l as [|[k e] l IH]; intros [k0 t0]; simpl; [eauto|].
  destruct (lastAccessed e <? t0)%Z; apply IH.
Qed.

Lemma find_oldest_nonempty m :
  m <> [] -> exists k t, find_oldest m = Some (k, t).
Proof.
  destruct m as [|[k e] m]; [congruence|]. intros _.
  unfold find_oldest. simpl.
  destruct (oldest_loop_some m (k, lastAccessed e)) as [[k' t'] E]. eauto.
Qed.

Lemma oldest_loop_spec (l : list (string * CacheEntry T)) acc k (t : Z) :
  fold_left oldest_step l acc = Some (k, t) ->
  (acc = Some (k, t) \/ exists e, In (k, e) l /\ lastAccessed e = t)
  /\ (forall k' e', In (k', e') l -> (t <= lastAccessed e')%Z)
  /\ (forall k0 t0, acc = Some (k0, t0) -> (t <= t0)%Z).
Proof.
  revert acc. induction l as [|[k1 e1] l IH]; intros acc H; simpl in H.
  - subst acc. repeat split; [now left | intros ? ? [] |].
    intros k0 t0 E. injection E as _ <-. lia.
  - apply IH in H. destruct H as [Hsrc [Hmin Hacc]].
    assert (Hstep : exists k' t', oldest_step acc (k1, e1) = Some (k', t')).
    { destruct acc as [[k0 t0]|]; simpl; [|eauto].
      destruct (lastAccessed e1 <? t0)%Z; eauto. }
    destruct Hstep as [k' [t' Hstep]]. specialize (Hacc _ _ Hstep).
    assert (Hle1 : (t' <= lastAccessed e1)%Z).
    { destruct acc as [[k0 t0]|]; simpl in Hstep.
      - destruct (Z.ltb_spec (lastAccessed e1) t0); injection Hstep as _ <-; lia.
      - injection Hstep as _ <-. lia. }
    repeat split.
    + destruct Hsrc as [E|[e [Hin He]]].
      * destruct acc as [[k0 t0]|]; simpl in E.
        -- destruct (lastAccessed e1 <? t0)%Z; [|now left].
           right. exists e1. injection E as <- <-. split; [now left | reflexivity].
        -- right. exists e1. injection E as <- <-. split; [now left | reflexivity].
      * right. exists e. split; [now right | assumption].
    + intros k2 e2 [E|Hin]; [|eauto]. injection E as _ <-. lia.
    + intros k0 t0 ->. simpl in Hstep.
      destruct (Z.ltb_spec (lastAccessed e1) t0); injection Hstep as _ <-; lia.
Qed.

(** [evictLRU] on a non-empty store deletes a binding whose
    [lastAccessed] is least. *)
Lemma evictLRU_spec c :
  cache c <> [] ->
  exists victim ve,
    In (victim, ve) (cache c)
    /\ (forall k' e', In (k', e') (cache c) -> (lastAccessed ve <= lastAccessed e')%Z)
    /\ evictLRU c = with_cache c (JsMap.delete victim (cache c)).
Proof.
  intros Hne. destruct (find_oldest_nonempty (cache c) Hne) as [k [t E]].
  unfold evictLRU. rewrite E. unfold find_oldest in E.
  apply oldest_loop_spec in E. destruct E as [[E|[e [Hin He]]] [Hmin _]]; [discriminate|].
  exists k, e. subst t. auto.
Qed.

Lemma evictLRU_empty c : cache c = [] -> evictLRU c = c.
Proof. unfold evictLRU, find_oldest. now intros ->. Qed.

Lemma size_pos_nonempty m : (1 <= JsMap.size m)%Z -> m <> [].
Proof. intros H ->. unfold JsMap.size in H. simpl in H. lia. Qed.

(** One [set] keeps a store that fits within a positive bound within it. *)
Lemma set_size_le c (tp now : Z) key (v : T) (customTTL : option Z) :
  (1 <= maxSize c)%Z -> (size c <= maxSize c)%Z ->
  (size (set c tp now key v customTTL) <= maxSize c)%Z.
Proof.
  intros Hcap Hinv. unfold set.
  pose proof (prune_size_le c tp) as Hp. unfold size in *.
  pose proof (prune_maxSize c tp) as Hm.
  set (c1 := snd (prune c tp)) in *. rewrite Hm.
  destruct (Z.geb_spec (JsMap.size (cache c1)) (maxSize c)) as [Hfull|Hroom]; simpl.
  - destruct (JsMap.has key (cache c1)) eqn:Hhas; simpl.
    + apply has_true_iff in Hhas. rewrite size_set_present by assumption. lia.
    + destruct (evictLRU_spec c1) as [victim [ve [Hin [_ ->]]]].
      { apply size_pos_nonempty. lia. }
      simpl. etransitivity; [apply size_set_le|].
      assert (In victim (JsMap.keys (cache c1))) as Hk.
      { change victim with (fst (victim, ve)). now apply in_map. }
      apply size_delete_present in Hk. lia.
  - etransitivity; [apply size_set_le|]. lia.
Qed.

Lemma step_maxSize c (op : call) : maxSize (step c op) = maxSize c.
Proof.
  destruct op as [tp now key v cttl|now key|now key|p|]; simpl.
  - unfold set. rewrite <- (prune_maxSize c tp).
    destruct (_ && _); [|reflexivity].
    unfold evictLRU. destruct (find_oldest _) as [[? ?]|]; reflexivity.
  - unfold get. destruct (JsMap.get _ _); [|reflexivity].
    now destruct (_ <=? _)%Z.
  - unfold has. destruct (JsMap.get _ _); [|reflexivity].
    now destruct (_ <=? _)%Z.
  - now rewrite invalidatePattern_filter.
  - reflexivity.
Qed.

Lemma run_maxSize c (ops : list call) : maxSize (run c ops) = maxSize c.
Proof.
  revert c. induction ops as [|op ops IH]; intros c; simpl; [reflexivity|].
  change (maxSize (run (step c op) ops) = maxSize c).
  now rewrite IH, step_maxSize.
Qed.

(** Every call keeps the store within a positive bound. *)
Lemma step_size_le c (op : call) :
  (1 <= maxSize c)%Z -> (size c <= maxSize c)%Z ->
  (size (step c op) <= maxSize c)%Z.
Proof.
  intros Hcap Hinv.
  destruct op as [tp now key v cttl|now key|now key|p|]; simpl.
  - now apply set_size_le.
  - unfold get. destruct (JsMap.get key (cache c)) as [e|] eqn:E; [|assumption].
    destruct (expiry e <=? now)%Z; unfold size; simpl.
    + pose proof (size_delete_le key (cache c)). unfold size in Hinv. lia.
    + rewrite size_set_present; [assumption|].
      apply has_true_iff. unfold JsMap.has. now rewrite E.
  - unfold has. destruct (JsMap.get key (cache c)) as [e|]; [|assumption].
    destruct (expiry e <=? now)%Z; [|assumption]. unfold size. simpl.
    pose proof (size_delete_le key (cache c)). unfold size in Hinv. lia.
  - rewrite invalidatePattern_filter. unfold size. simpl.
    pose proof (size_filter_le (fun kv => negb (test p (fst kv))) (cache c)).
    unfold size in Hinv. lia.
  - unfold size, clear, JsMap.size. simpl. lia.
Qed.

Lemma run_size_le c (ops : list call) :
  (1 <= maxSize c)%Z -> (size c <= maxSize c)%Z ->
  (size (run c ops) <= maxSize c)%Z.
Proof.
  revert c. induction ops as [|op ops IH]; intros c Hcap Hinv; simpl; [assumption|].
  change (size (run (step c op) ops) <= maxSize c)%Z.
  rewrite <- (step_maxSize c op).
  apply IH; rewrite step_maxSize; [assumption|]. now apply step_size_le.
Qed.

Lemma step_wf c (op : call) : JsMap.wf (cache c) -> JsMap.wf (cache (step c op)).
Proof.
  intros Hw.
  destruct op as [tp now key v cttl|now key|now key|p|]; simpl.
  - unfold set. pose proof (prune_wf c tp Hw) as Hw1.
    destruct (_ && _); simpl; [|now apply wf_set].
    unfold evictLRU. destruct (find_oldest _) as [[k ?]|]; simpl; apply wf_set;
      [now apply wf_delete | assumption].
  - unfold get. destruct (JsMap.get _ _); [|assumption].
    destruct (_ <=? _)%Z; simpl; [now apply wf_delete | now apply wf_set].
  - unfold has. destruct (JsMap.get _ _); [|assumption].
    destruct (_ <=? _)%Z; simpl; [now apply wf_delete | assumption].
  - rewrite invalidatePattern_filter. simpl. now apply wf_filter.
  - apply wf_empty.
Qed.

(** Every store reached from a fresh cache has pairwise distinct keys. *)
Lemma run_wf c (ops : list call) : JsMap.wf (cache c) -> JsMap.wf (cache (run c ops)).
Proof.
  revert c. induction ops as [|op ops IH]; intros c Hw; simpl; [assumption|].
  change (JsMap.wf (cache (run (step c op) ops))).
  apply IH. now apply step_wf.
Qed.
End Facts.
End EvictionFacts.

(* ================================================================== *)
(** ** The bounded size of the store *)

Import SmartCache.

(** C1, as amended.  For a cache built with a capacity of at least one
    (and any default TTL), after any sequence of calls of the public
    interface, a [set] leaves at most [maxSize] entries in the store. *)
Theorem set_within_capacity {T : Type} (maxSize0 ttl0 : option Z)
    (ops : list (@call T)) (tp now : Z) (key : string) (v : T) (customTTL : option Z) :
  (1 <= maxSize (@SmartCache.new T maxSize0 ttl0))%Z ->
  (size (set (run (SmartCache.new maxSize0 ttl0) ops) tp now key v customTTL)
   <= maxSize (@SmartCache.new T maxSize0 ttl0))%Z.
Proof.
  intros Hcap.
  set (c0 := SmartCache.new maxSize0 ttl0) in *.
  rewrite <- (EvictionFacts.run_maxSize c0 ops).
  apply EvictionFacts.set_size_le; rewrite EvictionFacts.run_maxSize; [assumption|].
  apply EvictionFacts.run_size_le; [assumption|].
  subst c0. unfold size, JsMap.size. simpl List.length. lia.
Qed.

Lemma set_within_capacity_witness :
  (1 <= maxSize (@SmartCache.new string (Some 2) (Some 1000)))%Z
  /\ (size (set Examples.cache_ab 2 2 "c" "3" None) <= 2)%Z.
Proof.
  split; [simpl; lia|].
  apply (set_within_capacity (Some 2%Z) (Some 1000%Z)
           [CallSet 0 0 "a" "1" None; CallSet 1 1 "b" "2" None] 2 2 "c" "3" None).
  simpl. lia.
Defined.

(** C1 as stated fails for a capacity of zero: the first [set] on a fresh
    [new SmartCache(0, 1000)] finds nothing to evict and stores one entry. *)
Lemma set_exceeds_capacity_zero :
  ~ (size (set (run Examples.cache_cap0 []) 0 0 "a" "1" None)
     <= maxSize Examples.cache_cap0)%Z.
Proof. vm_compute. intros H. apply H. reflexivity. Qed.

(** The bound of one is sharp: on a fresh cache built with any capacity
    below one, the first [set] leaves one entry. *)
Lemma set_on_fresh_cache_below_capacity_one {T : Type} (m : Z) (ttl0 : option Z)
    (tp now : Z) (key : string) (v : T) (customTTL : option Z) :
  (m <= 0)%Z ->
  size (set (SmartCache.new (Some m) ttl0) tp now key v customTTL) = 1%Z.
Proof.
  intros Hm. unfold set, prune. simpl.
  replace (JsMap.size JsMap.empty >=? m)%Z with true
    by (symmetry; apply Z.geb_le; unfold JsMap.size; simpl; lia).
  reflexivity.
Qed.

(* ================================================================== *)
(** ** Lazy expiry on [get] *)

(** C3.  When the entry of [k] has [expiry <= now], [get(k)] answers
    absent and leaves a store in which [k] is unbound, whose size is at
    least one less (exactly one less for a store with distinct keys), and
    in which every other key is bound as before. *)
Theorem get_expired_absent_and_removed {T : Type} (c : SmartCache.t T)
    (now : Z) (k : string) (e : CacheEntry T) :
  JsMap.get k (cache c) = Some e ->
  (expiry e <= now)%Z ->
  fst (get c now k) = None
  /\ JsMap.get k (cache (snd (get c now k))) = None
  /\ (size (snd (get c now k)) <= size c - 1)%Z
  /\ (JsMap.wf (cache c) -> size (snd (get c now k)) = (size c - 1)%Z)
  /\ (forall k', k' <> k ->
        JsMap.get k' (cache (snd (get c now k))) = JsMap.get k' (cache c)).
Proof.
  intros Hget Hexp. unfold get. rewrite Hget.
  apply Z.leb_le in Hexp. rewrite Hexp. simpl.
  assert (Hin : In k (JsMap.keys (cache c))).
  { apply JsMapFacts.has_true_iff. unfold JsMap.has. now rewrite Hget. }
  repeat split.
  - apply JsMapFacts.get_delete_same.
  - now apply JsMapFacts.size_delete_present.
  - intros Hw. now apply JsMapFacts.size_delete_wf.
  - intros k' Hne. now apply JsMapFacts.get_delete_other.
Qed.

Lemma get_expired_absent_and_removed_witness :
  JsMap.get "x" (cache Examples.cache_x) = Some (Examples.entry "v" 100 0)
  /\ (expiry (Examples.entry "v" 100 0) <= 150)%Z
  /\ fst (get Examples.cache_x 150 "x") = None
  /\ size (snd (get Examples.cache_x 150 "x")) = 0%Z.
Proof.
  split; [reflexivity|]. split; [simpl; lia|].
  destruct (get_expired_absent_and_removed Examples.cache_x 150 "x"
              (Examples.entry "v" 100 0) eq_refl) as [H1 [_ [_ [H4 _]]]].
  - simpl. lia.
  - split; [exact H1|]. rewrite H4; [reflexivity|].
    repeat constructor; simpl; tauto.
Defined.

(* ================================================================== *)
(** ** Eviction of the least recently used entry *)

(** C4, as amended.  For a store with distinct keys and a capacity of at
    least one: when the swept store holds exactly [maxSize] entries and
    [key] is not bound in it, [set(key, value)] evicts exactly one entry,
    one whose [lastAccessed] is least among the entries of the swept
    store, leaves every other entry as it was, and binds [key] to the new
    entry. *)
Theorem set_at_capacity_evicts_lru {T : Type} (c : SmartCache.t T)
    (tp now : Z) (key : string) (v : T) (customTTL : option Z) :
  JsMap.wf (cache c) ->
  (1 <= maxSize c)%Z ->
  size (snd (prune c tp)) = maxSize c ->
  JsMap.has key (cache (snd (prune c tp))) = false ->
  Spec.evicts_one_lru (cache (snd (prune c tp))) key
                      (cache (set c tp now key v customTTL))
  /\ JsMap.get key (cache (set c tp now key v customTTL)) =
     Some {| value := v;
             expiry := now + match customTTL with Some d => d | None => ttl c end;
             lastAccessed := now |}.
Proof.
  intros Hw Hcap Hfull Hnew. unfold set.
  pose proof (SmartCacheFacts.prune_wf c tp Hw) as Hw1.
  pose proof (SmartCacheFacts.prune_maxSize c tp) as Hm.
  pose proof (SmartCacheFacts.prune_ttl c tp) as Ht.
  unfold size in Hfull.
  set (c1 := snd (prune c tp)) in *.
  rewrite Hm, Hfull, Hnew, Ht.
  replace (maxSize c >=? maxSize c)%Z with true by (symmetry; apply Z.geb_le; lia).
  simpl andb. cbv iota.
  destruct (EvictionFacts.evictLRU_spec c1) as [victim [ve [Hin [Hmin ->]]]].
  { apply EvictionFacts.size_pos_nonempty. lia. }
  simpl cache.
  apply JsMapFacts.has_false_iff in Hnew.
  assert (Hvk : In victim (JsMap.keys (cache c1))).
  { change victim with (fst (victim, ve)). now apply in_map. }
  assert (Hne : victim <> key) by congruence.
  split; [|apply JsMapFacts.get_set_same].
  exists victim, ve. repeat split.
  - now apply JsMapFacts.In_get.
  - intros k' e' Hget. apply (Hmin k' e'). now apply JsMapFacts.get_In.
  - rewrite JsMapFacts.get_set_other by assumption. apply JsMapFacts.get_delete_same.
  - intros k' Hk Hv.
    rewrite JsMapFacts.get_set_other by assumption.
    now apply JsMapFacts.get_delete_other.
  - rewrite JsMapFacts.size_set_absent.
    + rewrite JsMapFacts.size_delete_wf by assumption. lia.
    + intros H. apply JsMapFacts.keys_delete_incl in H. tauto.
Qed.

Lemma set_at_capacity_evicts_lru_witness :
  JsMap.wf (cache Examples.cache_ab)
  /\ (1 <= maxSize Examples.cache_ab)%Z
  /\ size (snd (prune Examples.cache_ab 2)) = maxSize Examples.cache_ab
  /\ JsMap.has "c" (cache (snd (prune Examples.cache_ab 2))) = false
  /\ Spec.evicts_one_lru (cache (snd (prune Examples.cache_ab 2))) "c"
                         (cache (set Examples.cache_ab 2 2 "c" "3" None)).
Proof.
  assert (Hw : JsMap.wf (cache Examples.cache_ab)).
  { repeat constructor; simpl; intuition discriminate. }
  assert (Hcap : (1 <= maxSize Examples.cache_ab)%Z) by (simpl; lia).
  split; [exact Hw|]. split; [exact Hcap|].
  split; [reflexivity|]. split; [reflexivity|].
  exact (proj1 (set_at_capacity_evicts_lru Examples.cache_ab 2 2 "c" "3" None
                  Hw Hcap eq_refl eq_refl)).
Defined.

(** C4 as stated fails for a capacity of zero: the swept store of a fresh
    [new SmartCache(0, 1000)] holds exactly [maxSize] entries, namely
    none, the key is new, and [set] evicts nothing. *)
Lemma set_at_capacity_zero_evicts_nothing :
  JsMap.wf (cache Examples.cache_cap0)
  /\ size (snd (prune Examples.cache_cap0 0)) = maxSize Examples.cache_cap0
  /\ JsMap.has "a" (cache (snd (prune Examples.cache_cap0 0))) = false
  /\ ~ Spec.evicts_one_lru (cache (snd (prune Examples.cache_cap0 0))) "a"
                           (cache (set Examples.cache_cap0 0 0 "a" "1" None)).
Proof.
  repeat split; [constructor|].
  intros [victim [ve [Hget _]]]. simpl in Hget. discriminate.
Qed.

(* ================================================================== *)
(** ** The sweep at the start of [set] *)

(** C8.  [set] sweeps before it checks the capacity and inserts.  With
    [tp] the clock reading of the sweep: no entry of the resulting store
    other than the one for [key] has [expiry <= tp]; every entry of the
    initial store with [expiry <= tp] is gone (unless [key] re-binds its
    key); and the capacity check sees the swept store, so that when the
    unexpired entries number less than [maxSize] nothing is evicted and
    the result is the unexpired entries, in order, with [key] bound. *)
Theorem set_sweeps_expired_first {T : Type} (c : SmartCache.t T)
    (tp now : Z) (key : string) (v : T) (customTTL : option Z) :
  (forall k e, In (k, e) (cache (set c tp now key v customTTL)) ->
               k <> key -> (tp < expiry e)%Z)
  /\ (forall k e, In (k, e) (cache c) -> (expiry e <= tp)%Z -> k <> key ->
                  ~ In (k, e) (cache (set c tp now key v customTTL)))
  /\ (JsMap.wf (cache c) ->
      (JsMap.size (filter (fun ke => negb (Spec.expired tp ke)) (cache c))
       < maxSize c)%Z ->
      cache (set c tp now key v customTTL) =
      JsMap.set key
        {| value := v;
           expiry := now + match customTTL with Some d => d | None => ttl c end;
           lastAccessed := now |}
        (filter (fun ke => negb (Spec.expired tp ke)) (cache c))).
Proof.
  assert (Hlive : forall k e, In (k, e) (cache (set c tp now key v customTTL)) ->
                              k <> key -> (tp < expiry e)%Z).
  { intros k e Hin Hne. unfold set in Hin.
    set (c1 := snd (prune c tp)) in *.
    assert (Hsub : In (k, e) (cache c1)).
    { destruct (_ && _) in Hin.
      - unfold evictLRU in Hin.
        destruct (find_oldest (cache c1)) as [[victim ?]|]; simpl in Hin.
        + eapply JsMapFacts.In_delete, JsMapFacts.In_set_other; eauto.
        + eapply JsMapFacts.In_set_other; eauto.
      - simpl in Hin. eapply JsMapFacts.In_set_other; eauto. }
    now apply SmartCacheFacts.prune_In in Hsub. }
  split; [exact Hlive|]. split.
  - intros k e _ Hexp Hne Hin. specialize (Hlive k e Hin Hne). lia.
  - intros Hw Hroom. unfold set.
    rewrite SmartCacheFacts.prune_filter by assumption. simpl snd. simpl cache.
    simpl maxSize. simpl ttl.
    replace (_ >=? _)%Z with false; [reflexivity|].
    symmetry. destruct (Z.geb_spec
      (JsMap.size (filter (fun ke => negb (Spec.expired tp ke)) (cache c)))
      (maxSize c)); [lia | reflexivity].
Qed.

Lemma set_sweeps_expired_first_witness :
  In ("a.md", Examples.entry "a" 100 1)
     (cache (set Examples.cache_mixed 10 10 "c.md" "c" None))
  /\ "a.md" <> "c.md"
  /\ (10 < expiry (Examples.entry "a" 100 1))%Z
  /\ ~ In ("old.md", Examples.entry "o" 5 0)
          (cache (set Examples.cache_mixed 10 10 "c.md" "c" None)).
Proof.
  assert (Hin : In ("a.md", Examples.entry "a" 100 1)
                   (cache (set Examples.cache_mixed 10 10 "c.md" "c" None))).
  { vm_compute. tauto. }
  assert (Hne : "a.md" <> "c.md") by discriminate.
  destruct (set_sweeps_expired_first Examples.cache_mixed 10 10 "c.md" "c" None)
    as [H1 [H2 _]].
  split; [exact Hin|]. split; [exact Hne|]. split; [exact (H1 _ _ Hin Hne)|].
  apply H2; [simpl; tauto | simpl; lia | discriminate].
Defined.

(* ================================================================== *)
(** ** Entries inserted with a non-positive TTL *)

Module DeadOnArrival.
Import JsMapFacts SmartCacheFacts Spec.
Section Facts.
Context {T : Type}.
Implicit Types (c : SmartCache.t T).

Lemma set_In_other c (tp now : Z) key (v : T) customTTL k e :
  In (k, e) (cache (set c tp now key v customTTL)) -> k <> key ->
  In (k, e) (cache (snd (prune c tp))).
Proof.
  intros Hin Hne. unfold set in Hin.
  set (c1 := snd (prune c tp)) in *.
  destruct (_ && _) in Hin.
  - unfold evictLRU in Hin.
    destruct (find_oldest (cache c1)) as [[victim ?]|]; simpl in Hin.
    + eapply In_delete, In_set_other; eauto.
    + eapply In_set_other; eauto.
  - simpl in Hin. eapply In_set_other; eauto.
Qed.

Lemma key_expired_step key now c (op : call) :
  is_set_of key op = false ->
  key_expired key now c -> key_expired key now (step c op).
Proof.
  intros Hop Hinv e Hin.
  destruct op as [tp t k v cttl|t k|t k|p|]; simpl in *.
  - apply String.eqb_neq in Hop. apply Hinv.
    apply set_In_other in Hin; [|congruence].
    now apply prune_In in Hin.
  - unfold get in Hin. destruct (JsMap.get k (cache c)) as [e0|] eqn:E; [|auto].
    destruct (expiry e0 <=? t)%Z; simpl in Hin.
    + apply In_delete in Hin. auto.
    + apply In_set in Hin. destruct Hin as [Heq|Hin]; [|auto].
      injection Heq as <- ->. simpl. apply Hinv. now apply get_In.
  - unfold has in Hin. destruct (JsMap.get k (cache c)) as [e0|]; [|auto].
    destruct (expiry e0 <=? t)%Z; simpl in Hin; [|auto].
    apply In_delete in Hin. auto.
  - rewrite invalidatePattern_filter in Hin. simpl in Hin.
    apply filter_In in Hin. apply Hinv. tauto.
  - destruct Hin.
Qed.

Lemma key_expired_run key now (ops : list call) c :
  forallb (fun op => negb (is_set_of key op)) ops = true ->
  key_expired key now c -> key_expired key now (run c ops).
Proof.
  revert c. induction ops as [|op ops IH]; intros c Hops Hinv; [assumption|].
  simpl in Hops. apply andb_prop in Hops. destruct Hops as [Hop Hops].
  apply negb_true_iff in Hop.
  change (key_expired key now (run (step c op) ops)).
  apply IH; [assumption|]. now apply key_expired_step.
Qed.

Lemma key_expired_absent key now c (t : Z) :
  key_expired key now c -> (now <= t)%Z ->
  fst (get c t key) = None /\ fst (has c t key) = false.
Proof.
  intros Hinv Hle. unfold get, has.
  destruct (JsMap.get key (cache c)) as [e|] eqn:E; [|now split].
  apply get_In in E. apply Hinv in E.
  replace (expiry e <=? t)%Z with true by (symmetry; apply Z.leb_le; lia).
  now split.
Qed.
End Facts.
End DeadOnArrival.

(** C9.  For a store with distinct keys, [set(k, v, d)] with [d <= 0]
    still binds [k], to an entry whose [expiry] is [now + d <= now].  From
    then on, after any calls other than a [set] on [k], [get(k)] and
    [has(k)] at any time [t >= now] answer absent and [false].  Yet the
    entry is in the store: it is counted by [size()]; it is still in the
    swept store whose size a later [set] compares with [maxSize] if the
    sweep of that [set] reads a clock value below its [expiry]; and its
    own insertion, when [k] is new and the swept store is full, evicts an
    entry that the sweep had found live. *)
Theorem set_nonpositive_ttl_dead_on_arrival {T : Type} (c : SmartCache.t T)
    (tp now : Z) (key : string) (v : T) (d : Z) :
  JsMap.wf (cache c) ->
  (d <= 0)%Z ->
  let c' := set c tp now key v (Some d) in
  JsMap.get key (cache c') =
    Some {| value := v; expiry := now + d; lastAccessed := now |}
  /\ (now + d <= now)%Z
  /\ (forall (ops : list call) (t : Z),
        forallb (fun op => negb (Spec.is_set_of key op)) ops = true ->
        (now <= t)%Z ->
        fst (get (run c' ops) t key) = None /\ fst (has (run c' ops) t key) = false)
  /\ In key (JsMap.keys (cache c'))
  /\ size c' = (JsMap.size (JsMap.delete key (cache c')) + 1)%Z
  /\ (forall tp', (tp' < now + d)%Z ->
        In key (JsMap.keys (cache (snd (prune c' tp')))))
  /\ ((size (snd (prune c tp)) >= maxSize c)%Z ->
      JsMap.has key (cache (snd (prune c tp))) = false ->
      cache (snd (prune c tp)) <> [] ->
      exists victim ve,
        In (victim, ve) (cache (snd (prune c tp)))
        /\ (tp < expiry ve)%Z
        /\ JsMap.get victim (cache c') = None).
Proof.
  intros Hw Hd c'.
  assert (Hw' : JsMap.wf (cache c')).
  { exact (EvictionFacts.step_wf c (CallSet tp now key v (Some d)) Hw). }
  assert (Hget : JsMap.get key (cache c') =
                 Some {| value := v; expiry := now + d; lastAccessed := now |}).
  { subst c'. unfold set. simpl. apply JsMapFacts.get_set_same. }
  assert (Hin : In key (JsMap.keys (cache c'))).
  { apply JsMapFacts.has_true_iff. unfold JsMap.has. now rewrite Hget. }
  split; [exact Hget|]. split; [lia|]. split; [|split; [exact Hin|split; [|split]]].
  - intros ops t Hops Ht.
    apply (DeadOnArrival.key_expired_absent key now); [|assumption].
    apply DeadOnArrival.key_expired_run; [assumption|].
    intros e He. apply JsMapFacts.get_In in Hget.
    rewrite (SmartCacheFacts.wf_In_unique _ _ _ _ Hw' He Hget). simpl. lia.
  - unfold size. rewrite JsMapFacts.size_delete_wf by assumption. lia.
  - intros tp' Htp. rewrite SmartCacheFacts.prune_filter by assumption. simpl.
    apply JsMapFacts.get_In in Hget.
    change key with (fst (key, {| value := v; expiry := now + d; lastAccessed := now |})).
    apply in_map. apply filter_In. split; [assumption|].
    unfold Spec.expired. simpl. apply negb_true_iff, Z.leb_gt. lia.
  - intros Hfull Hnew Hne. subst c'. unfold set.
    pose proof (SmartCacheFacts.prune_maxSize c tp) as Hm.
    unfold size in Hfull. set (c1 := snd (prune c tp)) in *.
    rewrite Hm, Hnew.
    replace (JsMap.size (cache c1) >=? maxSize c)%Z with true
      by (symmetry; apply Z.geb_le; lia).
    simpl andb. cbv iota.
    destruct (EvictionFacts.evictLRU_spec c1 Hne) as [victim [ve [Hvin [_ ->]]]].
    exists victim, ve. split; [exact Hvin|]. split.
    + subst c1. now apply SmartCacheFacts.prune_In in Hvin.
    + simpl cache. apply JsMapFacts.has_false_iff in Hnew.
      assert (Hvk : In victim (JsMap.keys (cache c1))).
      { change victim with (fst (victim, ve)). now apply in_map. }
      rewrite JsMapFacts.get_set_other by congruence.
      apply JsMapFacts.get_delete_same.
Qed.

Lemma set_nonpositive_ttl_dead_on_arrival_witness :
  JsMap.wf (cache Examples.cache_ab)
  /\ (0 <= 0)%Z
  /\ fst (get (set Examples.cache_ab 5 5 "z" "v" (Some 0%Z)) 5 "z") = None
  /\ size (set Examples.cache_ab 5 5 "z" "v" (Some 0%Z)) = 2%Z.
Proof.
  assert (Hw : JsMap.wf (cache Examples.cache_ab)).
  { repeat constructor; simpl; intuition discriminate. }
  assert (Hd : (0 <= 0)%Z) by lia.
  destruct (set_nonpositive_ttl_dead_on_arrival Examples.cache_ab 5 5 "z" "v" 0 Hw Hd)
    as [_ [_ [Habsent [_ [Hsize _]]]]].
  split; [exact Hw|]. split; [exact Hd|]. split.
  - exact (proj1 (Habsent [] 5%Z eq_refl (Z.le_refl 5))).
  - rewrite Hsize. reflexivity.
Defined.

(* ================================================================== *)
(** ** Invalidation by pattern *)

Module InvalidateFacts.
Import JsMapFacts SmartCacheFacts.
Section Facts.
Context {A : Type}.

Lemma filter_all (f : A -> bool) (l : list A) :
  (forall x, In x l -> f x = true) -> filter f l = l.
Proof.
  induction l as [|x l IH]; simpl; intros H; [reflexivity|].
  rewrite (H x) by now left. f_equal. apply IH. auto.
Qed.

Lemma length_filter_cases (f g : A -> bool) (l : list A) :
  List.length (filter f l) =
  (List.length (filter (fun x => f x && g x) l)
   + List.length (filter (fun x => f x && negb (g x)) l))%nat.
Proof.
  induction l as [|x l IH]; simpl; [reflexivity|].
  destruct (f x), (g x); simpl; lia.
Qed.
End Facts.

Lemma with_cache_same {T : Type} (c : SmartCache.t T) : with_cache c (cache c) = c.
Proof. now destruct c. Qed.

Lemma invalidatePattern_count {T : Type} (c : SmartCache.t T) (p : RegExp) :
  fst (invalidatePattern c p) = (size c - size (snd (invalidatePattern c p)))%Z.
Proof.
  rewrite invalidatePattern_filter. unfold size, JsMap.size. simpl.
  rewrite length_filter_keys.
  pose proof (length_filter_split (fun kv : string * CacheEntry T => test p (fst kv))
                (cache c)). lia.
Qed.
End InvalidateFacts.

(** For a pattern without flags, [invalidatePattern(pattern)] leaves exactly the entries whose key
    the pattern does not match, unchanged and in order; it unbinds every
    matching key; it returns the number of entries removed, which is the
    number of matching keys.  On a store with distinct keys a pattern
    that matches exactly one bound key removes that key alone and returns
    1; a pattern that matches no bound key returns 0 and changes
    nothing. *)
Lemma flagless_invalidatePattern_exact {T : Type}
    (c : SmartCache.t T) (p : RegExp) :
  cache (snd (invalidatePattern c p)) =
    filter (fun ke => negb (test p (fst ke))) (cache c)
  /\ maxSize (snd (invalidatePattern c p)) = maxSize c
  /\ ttl (snd (invalidatePattern c p)) = ttl c
  /\ (forall k, test p k = true ->
                JsMap.get k (cache (snd (invalidatePattern c p))) = None)
  /\ (forall k, test p k = false ->
                JsMap.get k (cache (snd (invalidatePattern c p))) = JsMap.get k (cache c))
  /\ fst (invalidatePattern c p) = (size c - size (snd (invalidatePattern c p)))%Z
  /\ fst (invalidatePattern c p) =
       Z.of_nat (List.length (filter (test p) (JsMap.keys (cache c))))
  /\ (forall k, JsMap.wf (cache c) -> In k (JsMap.keys (cache c)) ->
                test p k = true ->
                (forall k', In k' (JsMap.keys (cache c)) -> test p k' = true -> k' = k) ->
                fst (invalidatePattern c p) = 1%Z
                /\ cache (snd (invalidatePattern c p)) = JsMap.delete k (cache c))
  /\ ((forall k, In k (JsMap.keys (cache c)) -> test p k = false) ->
      fst (invalidatePattern c p) = 0%Z /\ snd (invalidatePattern c p) = c).
Proof.
  pose proof (InvalidateFacts.invalidatePattern_count c p) as Hcount.
  rewrite SmartCacheFacts.invalidatePattern_filter in *. simpl fst in *. simpl snd in *.
  simpl cache in *. simpl maxSize. simpl ttl.
  split; [reflexivity|]. split; [reflexivity|]. split; [reflexivity|].
  split; [|split; [|split; [exact Hcount|split; [reflexivity|split]]]].
  - intros k Hk.
    rewrite (JsMapFacts.get_filter_keys (fun k => negb (test p k))). now rewrite Hk.
  - intros k Hk.
    rewrite (JsMapFacts.get_filter_keys (fun k => negb (test p k))). now rewrite Hk.
  - intros k Hw Hin Hk Honly.
    assert (E : filter (fun ke => negb (test p (fst ke))) (cache c)
                = JsMap.delete k (cache c)).
    { rewrite JsMapFacts.delete_filter. apply filter_ext_in.
      intros [k' e'] Hin'. simpl. f_equal.
      destruct (test p k') eqn:Hk'.
      - symmetry. apply String.eqb_eq. symmetry. apply Honly; [|assumption].
        change k' with (fst (k', e')). now apply in_map.
      - symmetry. apply String.eqb_neq. congruence. }
    split; [|exact E]. rewrite Hcount. unfold size. simpl cache. rewrite E.
    rewrite JsMapFacts.size_delete_wf by assumption. lia.
  - intros Hnone.
    assert (E : filter (fun ke => negb (test p (fst ke))) (cache c) = cache c).
    { apply InvalidateFacts.filter_all. intros [k e] Hin. simpl.
      rewrite Hnone; [reflexivity|]. change k with (fst (k, e)). now apply in_map. }
    split.
    + rewrite Hcount. unfold size. simpl cache. rewrite E. lia.
    + rewrite E. apply InvalidateFacts.with_cache_same.
Qed.

(** For a pattern without flags, [invalidatePattern] reads no clock and checks no expiry: at any
    instant [now], the count it returns is the number of matching entries
    already expired at [now] plus the number of matching entries still
    live.  A matching entry with [expiry <= now], which [get] and [has]
    report absent at [now], is removed and counted like any other. *)
Lemma flagless_invalidatePattern_counts_expired {T : Type}
    (c : SmartCache.t T) (p : RegExp) (now : Z) :
  fst (invalidatePattern c p) =
    (Z.of_nat (List.length
       (filter (fun ke => test p (fst ke) && Spec.expired now ke) (cache c)))
     + Z.of_nat (List.length
       (filter (fun ke => test p (fst ke) && negb (Spec.expired now ke)) (cache c))))%Z
  /\ (forall k e,
        JsMap.get k (cache c) = Some e -> (expiry e <= now)%Z -> test p k = true ->
        fst (get c now k) = None
        /\ fst (has c now k) = false
        /\ (1 <= fst (invalidatePattern c p))%Z
        /\ JsMap.get k (cache (snd (invalidatePattern c p))) = None).
Proof.
  rewrite SmartCacheFacts.invalidatePattern_filter. simpl fst. simpl snd. simpl cache.
  split.
  - rewrite SmartCacheFacts.length_filter_keys.
    rewrite (InvalidateFacts.length_filter_cases
               (fun ke : string * CacheEntry T => test p (fst ke)) (Spec.expired now)).
    lia.
  - intros k e Hget Hexp Hk. unfold get, has. rewrite Hget.
    replace (expiry e <=? now)%Z with true by (symmetry; apply Z.leb_le; lia).
    split; [reflexivity|]. split; [reflexivity|]. split.
    + rewrite SmartCacheFacts.length_filter_keys.
      apply JsMapFacts.get_In in Hget.
      assert (Hin : In (k, e) (filter (fun kv => test p (fst kv)) (cache c))).
      { apply filter_In. split; [assumption | exact Hk]. }
      destruct (filter _ (cache c)); [destruct Hin | simpl List.length; lia].
    + rewrite (JsMapFacts.get_filter_keys (fun k => negb (test p k))). now rewrite Hk.
Qed.

(* ================================================================== *)
(** ** The cached file store *)

Module StoreFacts.
Import Node JsMapFacts.

Section Facts.
Context {Disk : Type} (h : host Disk).

(** A hit of [get] is a bound key whose entry is not expired. *)
Lemma get_hit {T : Type} (c : SmartCache.t T) (now : Z) (k : string) (e : CacheEntry T) :
  JsMap.get k (cache c) = Some e -> (now < expiry e)%Z ->
  fst (get c now k) = Some (value e).
Proof.
  intros Hget Hlive. unfold get. rewrite Hget.
  replace (expiry e <=? now)%Z with false by (symmetry; apply Z.leb_gt; lia).
  reflexivity.
Qed.

Lemma get_miss {T : Type} (c : SmartCache.t T) (now : Z) (k : string) :
  fst (get c now k) = None <->
  (JsMap.get k (cache c) = None
   \/ exists e, JsMap.get k (cache c) = Some e /\ (expiry e <= now)%Z).
Proof.
  unfold get. destruct (JsMap.get k (cache c)) as [e|]; [|tauto].
  destruct (Z.leb_spec (expiry e) now) as [Hexp|Hlive]; simpl; split.
  - intros _. right. eauto.
  - reflexivity.
  - discriminate.
  - intros [E|[e' [E Hle]]]; [discriminate|]. injection E as <-. lia.
Qed.

(** [get] binds no new key and alters no [value] or [expiry]. *)
Lemma get_inserts_nothing {T : Type} (c : SmartCache.t T) (now : Z) (k k' : string)
    (e' : CacheEntry T) :
  fst (get c now k) = None ->
  JsMap.get k' (cache (snd (get c now k))) = Some e' ->
  JsMap.get k' (cache c) = Some e'.
Proof.
  unfold get. destruct (JsMap.get k (cache c)) as [e|] eqn:E; [|auto].
  destruct (expiry e <=? now)%Z; simpl; [|discriminate].
  intros _ H. destruct (String.eqb_spec k' k) as [->|Hne].
  - rewrite get_delete_same in H. discriminate.
  - now rewrite get_delete_other in H.
Qed.

Lemma readFile_calls (w : Utils.world Disk) (path : string) :
  Utils.calls (snd (Utils.readFile h w path)) = Utils.IoRead path :: Utils.calls w.
Proof.
  unfold Utils.readFile. now destruct (fs_readFile h (Utils.disk w) path).
Qed.

(** After a successful [_writeFile] whose pattern matches the key, the
    next [_readFile] goes to the disk. *)
Lemma write_then_read_when_pattern_matches
    (cm : ContextManager.t) (w w' : Utils.world Disk) (k content : string)
    (pattern : RegExp) (tg tp ts : Z) :
  RegExp_new h ("^" ++ k ++ "$") = inr pattern ->
  test pattern k = true ->
  Utils.writeFile h w k content = (inr tt, w') ->
  fs_readFile h (Utils.disk w') k = Some content ->
  exists cm',
    ContextManager._writeFile h cm w k content = (inr tt, cm', w')
    /\ fst (fst (ContextManager._readFile h cm' w' tg tp ts k)) = inr content.
Proof.
  intros Hre Hmatch Hwrite Hread.
  unfold ContextManager._writeFile, ContextManager.invalidate_exact.
  rewrite Hwrite, Hre. eexists. split; [reflexivity|].
  unfold ContextManager._readFile. simpl ContextManager.fileCache.
  rewrite SmartCacheFacts.invalidatePattern_filter. simpl snd.
  unfold get at 1. simpl cache.
  rewrite (get_filter_keys (fun k => negb (test pattern k))), Hmatch. simpl.
  unfold Utils.readFile. now rewrite Hread.
Qed.
End Facts.
End StoreFacts.

(** C2 fails on the code: the pattern is built from the path without
    escaping it, so a path with a character of the pattern syntax need not
    match itself.  With the project in [/w/a+b], the entry of the state
    file survives the write of ["B"], and the read that follows returns
    the stale ["A"] while the disk holds ["B"]. *)
Theorem write_then_read_returns_stale_content :
  Examples.write_read_write_read Examples.state_file_plus
  = (inr "A", inr tt, inr "A", Some "B").
Proof. vm_compute. reflexivity. Qed.

(** For contrast, the same scenario with the project in [/w/ab]. *)
Lemma write_then_read_returns_fresh_content :
  Examples.write_read_write_read Examples.state_file_plain
  = (inr "A", inr tt, inr "B", Some "B").
Proof. vm_compute. reflexivity. Qed.

(** C5.  When the storage call fails, [_writeFile] and [_appendFile] fail
    with the same error and leave the manager, hence every cache entry,
    as it was. *)
Theorem write_failure_leaves_cache_untouched {Disk : Type} (h : Node.host Disk)
    (cm : ContextManager.t) (w : Utils.world Disk) (path content : string) :
  (forall err w', Utils.writeFile h w path content = (inl err, w') ->
                  ContextManager._writeFile h cm w path content = (inl err, cm, w'))
  /\ (forall err w', Utils.appendFile h w path content = (inl err, w') ->
                     ContextManager._appendFile h cm w path content = (inl err, cm, w')).
Proof.
  split; intros err w' H.
  - unfold ContextManager._writeFile. now rewrite H.
  - unfold ContextManager._appendFile. now rewrite H.
Qed.

Lemma write_failure_leaves_cache_untouched_witness :
  fst (fst (ContextManager._writeFile MemHost.host Examples.manager_f
              Examples.world_g "locked.md" "x"))
    = inl (Node.mkError "Could not write to file: locked.md")
  /\ snd (fst (ContextManager._writeFile MemHost.host Examples.manager_f
                 Examples.world_g "locked.md" "x")) = Examples.manager_f
  /\ snd (fst (ContextManager._appendFile MemHost.host Examples.manager_f
                 Examples.world_g "locked.md" "x")) = Examples.manager_f.
Proof.
  destruct (write_failure_leaves_cache_untouched MemHost.host Examples.manager_f
              Examples.world_g "locked.md" "x") as [Hw Ha].
  split; [|split].
  - erewrite Hw; [reflexivity|]. vm_compute. reflexivity.
  - erewrite Hw; [reflexivity|]. vm_compute. reflexivity.
  - erewrite Ha; [reflexivity|]. vm_compute. reflexivity.
Defined.

(** C6.  [_readFile(k)]: on a hit (the key is bound to an entry not yet
    expired) it returns the cached value and makes no storage call; on a
    miss it calls the storage once, and either returns the content read
    and binds [k] to it, or fails with the error of the storage and binds
    nothing. *)
Theorem readFile_cache_first {Disk : Type} (h : Node.host Disk)
    (cm : ContextManager.t) (w : Utils.world Disk) (tg tp ts : Z) (k : string) :
  let c := ContextManager.fileCache cm in
  (forall e, JsMap.get k (cache c) = Some e -> (tg < expiry e)%Z ->
     ContextManager._readFile h cm w tg tp ts k
     = (inr (value e), {| ContextManager.fileCache := snd (get c tg k) |}, w))
  /\ (forall content w',
        fst (get c tg k) = None ->
        Utils.readFile h w k = (inr content, w') ->
        ContextManager._readFile h cm w tg tp ts k
        = (inr content,
           {| ContextManager.fileCache := set (snd (get c tg k)) tp ts k content None |},
           w')
        /\ JsMap.get k (cache (set (snd (get c tg k)) tp ts k content None))
           = Some {| value := content; expiry := ts + ttl c; lastAccessed := ts |}
        /\ Utils.calls w' = Utils.IoRead k :: Utils.calls w)
  /\ (forall err w',
        fst (get c tg k) = None ->
        Utils.readFile h w k = (inl err, w') ->
        ContextManager._readFile h cm w tg tp ts k
        = (inl err, {| ContextManager.fileCache := snd (get c tg k) |}, w')
        /\ (forall k' e', JsMap.get k' (cache (snd (get c tg k))) = Some e' ->
                          JsMap.get k' (cache c) = Some e')).
Proof.
  intros c. split; [|split].
  - intros e Hget Hlive. unfold ContextManager._readFile. fold c.
    pose proof (StoreFacts.get_hit c tg k e Hget Hlive) as Hhit.
    destruct (get c tg k) as [r c1]. simpl in Hhit. now subst r.
  - intros content w' Hmiss Hread. unfold ContextManager._readFile. fold c.
    pose proof (StoreFacts.readFile_calls h w k) as Hcalls.
    assert (Httl : ttl (snd (get c tg k)) = ttl c).
    { unfold get. destruct (JsMap.get k (cache c)); [|reflexivity].
      now destruct (_ <=? _)%Z. }
    destruct (get c tg k) as [r c1]. simpl in Hmiss. subst r.
    rewrite Hread in *. simpl in Hcalls, Httl. simpl snd.
    split; [reflexivity|]. split; [|exact Hcalls].
    unfold set. simpl cache. rewrite JsMapFacts.get_set_same.
    now rewrite SmartCacheFacts.prune_ttl, Httl.
  - intros err w' Hmiss Hread. split.
    + unfold ContextManager._readFile. fold c.
      destruct (get c tg k) as [r c1]. simpl in Hmiss. subst r.
      now rewrite Hread.
    + intros k' e'. now apply StoreFacts.get_inserts_nothing.
Qed.

Lemma readFile_cache_first_witness :
  ContextManager._readFile MemHost.host Examples.manager_f Examples.world_g 10 10 10 "f.md"
    = (inr "cached",
       {| ContextManager.fileCache :=
            snd (get (ContextManager.fileCache Examples.manager_f) 10 "f.md") |},
       Examples.world_g)
  /\ fst (fst (ContextManager._readFile MemHost.host Examples.manager_f
                 Examples.world_g 10 10 10 "stale.md")) = inr "fresh"
  /\ fst (fst (ContextManager._readFile MemHost.host Examples.manager_f
                 Examples.world_g 10 10 10 "missing.md"))
     = inl (Node.mkError "Could not read file: missing.md").
Proof.
  split; [|split].
  - exact (proj1 (readFile_cache_first MemHost.host Examples.manager_f
                    Examples.world_g 10 10 10 "f.md")
             (Examples.entry "cached" 100 0) eq_refl eq_refl).
  - destruct (readFile_cache_first MemHost.host Examples.manager_f
                Examples.world_g 10 10 10 "stale.md") as [_ [Hmiss _]].
    destruct (Hmiss "fresh" _ eq_refl eq_refl) as [E _]. now rewrite E.
  - destruct (readFile_cache_first MemHost.host Examples.manager_f
                Examples.world_g 10 10 10 "missing.md") as [_ [_ Hfail]].
    destruct (Hfail _ _ eq_refl eq_refl) as [E _]. now rewrite E.
Defined.

(* ================================================================== *)
(** ** When the unescaped pattern is exact

    The pattern [`^${filePath}$`] matches [filePath] and nothing else as
    soon as the path is free of pattern syntax; on the in-memory host the
    write-then-read property of C2 then holds. *)

Module ExactPattern.
Import JsRegExp.

Lemma tokenize_plain_cons (c : ascii) (rest : list ascii) :
  plain c = true ->
  tokenize (c :: rest) = option_map (cons (TAtom (Lit c))) (tokenize rest).
Proof.
  intros H. destruct c as [b0 b1 b2 b3 b4 b5 b6 b7].
  destruct b0, b1, b2, b3, b4, b5, b6, b7;
    first [ discriminate H | reflexivity ].
Qed.

Lemma tokenize_plain (s rest : list ascii) :
  forallb plain s = true ->
  tokenize (s ++ rest)%list =
  option_map (app (map (fun c => TAtom (Lit c)) s)) (tokenize rest).
Proof.
  induction s as [|c s IH]; simpl app; intros H.
  - now destruct (tokenize rest).
  - simpl in H. apply andb_prop in H. destruct H as [Hc Hs].
    rewrite tokenize_plain_cons, IH by assumption.
    now destruct (tokenize rest).
Qed.

Lemma pieces_of_atom_atom (a b : atom) (rest : list token) :
  pieces_of (TAtom a :: TAtom b :: rest) =
  option_map (fun '(ps, e) => ((a, One) :: ps, e)) (pieces_of (TAtom b :: rest)).
Proof. reflexivity. Qed.

Lemma pieces_of_literals (s : list ascii) :
  pieces_of (map (fun c => TAtom (Lit c)) s ++ [TDollar])%list =
  Some (map (fun c => (Lit c, One)) s, true).
Proof.
  induction s as [|c s IH]; [reflexivity|].
  destruct s as [|c' s]; [reflexivity|].
  simpl map in *. simpl app in *.
  rewrite pieces_of_atom_atom, IH. reflexivity.
Qed.

Lemma match_here_literals (s t : list ascii) :
  match_here (map (fun c => (Lit c, One)) s) true t = true <-> t = s.
Proof.
  revert t. induction s as [|c s IH]; intros t; simpl.
  - destruct t; split; congruence.
  - destruct t as [|c' t]; [split; discriminate|].
    rewrite andb_true_iff, IH, Ascii.eqb_eq. split.
    + intros [-> ->]. reflexivity.
    + intros E. injection E as -> ->. now split.
Qed.

Lemma list_ascii_of_string_app (a b : string) :
  list_ascii_of_string (a ++ b) =
  (list_ascii_of_string a ++ list_ascii_of_string b)%list.
Proof. induction a as [|c a IH]; simpl; [reflexivity | now rewrite IH]. Qed.

Lemma list_ascii_of_string_inj (a b : string) :
  list_ascii_of_string a = list_ascii_of_string b -> a = b.
Proof.
  intros H. rewrite <- (string_of_list_ascii_of_string a),
                    <- (string_of_list_ascii_of_string b). now rewrite H.
Qed.

(** For a key free of pattern syntax, [new RegExp(`^${key}$`)] is a
    pattern that matches [key] and no other string. *)
Lemma make_exact (k : string) :
  plain_key k = true ->
  exists p, make ("^" ++ k ++ "$") = Some p
            /\ forall s, test p s = true <-> s = k.
Proof.
  intros Hk. unfold make, parse.
  change ("^" ++ k ++ "$") with (String "^" (k ++ "$")).
  simpl list_ascii_of_string. rewrite list_ascii_of_string_app.
  change (tokenize ("^"%char :: (list_ascii_of_string k ++ list_ascii_of_string "$")%list))
    with (option_map (cons TCaret)
            (tokenize (list_ascii_of_string k ++ list_ascii_of_string "$")%list)).
  rewrite tokenize_plain by exact Hk.
  change (tokenize (list_ascii_of_string "$")) with (Some [TDollar]).
  simpl option_map. rewrite pieces_of_literals. simpl option_map.
  eexists. split; [reflexivity|].
  intros s. unfold exec. simpl. rewrite match_here_literals.
  split; [apply list_ascii_of_string_inj | now intros ->].
Qed.

(** On the in-memory host, writing a key free of pattern syntax and
    reading it back returns the content written, whatever was cached. *)
Lemma write_then_read_plain_key (cm : ContextManager.t)
    (w : Utils.world MemHost.Disk) (k content : string) (tg tp ts : Z) :
  plain_key k = true ->
  MemHost.is_denied (Utils.disk w) k = false ->
  exists cm' w',
    ContextManager._writeFile MemHost.host cm w k content = (inr tt, cm', w')
    /\ fst (fst (ContextManager._readFile MemHost.host cm' w' tg tp ts k))
       = inr content.
Proof.
  intros Hk Hok. destruct (make_exact k Hk) as [p [Hp Hexact]].
  assert (Hwrite : exists w',
             Utils.writeFile MemHost.host w k content = (inr tt, w')
             /\ MemHost.readFile (Utils.disk w') k = Some content).
  { unfold Utils.writeFile. simpl. unfold MemHost.writeFile. rewrite Hok.
    eexists. split; [reflexivity|]. simpl. unfold MemHost.readFile, MemHost.is_denied.
    simpl. unfold MemHost.is_denied in Hok. rewrite Hok.
    apply JsMapFacts.get_set_same. }
  destruct Hwrite as [w' [Hwrite Hread]].
  destruct (StoreFacts.write_then_read_when_pattern_matches MemHost.host
              cm w w' k content p tg tp ts) as [cm' H]; try assumption.
  - change (MemHost.new_RegExp ("^" ++ k ++ "$") = inr p).
    unfold MemHost.new_RegExp. now rewrite Hp.
  - now apply Hexact.
  - exists cm', w'. exact H.
Qed.

(** The unescaped pattern can also match other keys: a dot of the path
    stands for any character, so writing the state file of [/w] drops the
    entry of a different path as well. *)
Lemma write_invalidates_another_key :
  cache (ContextManager.fileCache
           (snd (fst (ContextManager._writeFile MemHost.host Examples.manager_dots
                        (MemHost.world0 [] []) "/w/.context/CURRENT_STATE.md" "new"))))
  = [].
Proof. vm_compute. reflexivity. Qed.
End ExactPattern.

(* ================================================================== *)
(** ** The scenarios of the specification *)

Module Scenarios.

(** Capacity 2: after [set("a")], [set("b")], [set("c")] the store holds
    exactly [b] and [c]. *)
Example capacity_two_keeps_b_c :
  JsMap.keys (cache (set Examples.cache_ab 2 2 "c" "3" None)) = ["b"; "c"]
  /\ size (set Examples.cache_ab 2 2 "c" "3" None) = 2%Z.
Proof. split; reflexivity. Qed.

(** TTL 100: [set("x")] at time 0, [get("x")] at time 150 is absent and
    the store is empty afterwards; at time 99 it is a hit. *)
Example ttl_elapsed_absent :
  get Examples.cache_x 150 "x" = (None, with_cache Examples.cache_x [])
  /\ fst (get Examples.cache_x 99 "x") = Some "v".
Proof. split; reflexivity. Qed.

(** A read refreshes recency: after [get("a")] at time 2, [set("c")]
    evicts [b]. *)
Example get_refreshes_recency :
  JsMap.keys (cache (set (snd (get Examples.cache_ab 2 "a")) 3 3 "c" "3" None))
  = ["a"; "c"].
Proof. reflexivity. Qed.

(** The sweep and the insertion read the clock separately: an entry that
    expires between the two readings is kept by this [set]. *)
Example entry_expiring_between_clock_reads :
  JsMap.keys (cache (set Examples.cache_x 99 100 "y" "w" None)) = ["x"; "y"]
  /\ JsMap.keys (cache (set Examples.cache_x 100 100 "y" "w" None)) = ["y"].
Proof. split; reflexivity. Qed.
End Scenarios.

(* ================================================================== *)
(** * Further properties of the cache *)

Module CacheFacts.
Import JsMapFacts SmartCacheFacts EvictionFacts Calls.
Section Facts.
Context {T : Type}.
Implicit Types (c : SmartCache.t T) (k key : string) (e : CacheEntry T).

Lemma set_binds c (tp now : Z) key (v : T) customTTL :
  JsMap.get key (cache (set c tp now key v customTTL))
  = Some (fresh_entry c now v customTTL).
Proof.
  unfold set, fresh_entry, effective_ttl. simpl cache.
  rewrite get_set_same, prune_ttl. reflexivity.
Qed.

Lemma oldest_loop_keeps (l : list (string * CacheEntry T)) k (t : Z) :
  (forall k' e', In (k', e') l -> (t <= lastAccessed e')%Z) ->
  fold_left oldest_step l (Some (k, t)) = Some (k, t).
Proof.
  induction l as [|[k1 e1] l IH]; intros H; simpl; [reflexivity|].
  replace (lastAccessed e1 <? t)%Z with false.
  - apply IH. intros k' e' Hin. apply (H k' e'). now right.
  - symmetry. apply Z.ltb_ge. apply (H k1 e1). now left.
Qed.

Lemma find_oldest_first_min (l1 l2 : list (string * CacheEntry T)) k e :
  (forall k' e', In (k', e') l1 -> (lastAccessed e < lastAccessed e')%Z) ->
  (forall k' e', In (k', e') l2 -> (lastAccessed e <= lastAccessed e')%Z) ->
  find_oldest (l1 ++ (k, e) :: l2)%list = Some (k, lastAccessed e).
Proof.
  intros H1 H2. unfold find_oldest. rewrite fold_left_app.
  change (fold_left oldest_step ((k, e) :: l2) (fold_left oldest_step l1 None))
    with (fold_left oldest_step l2
            (oldest_step (fold_left oldest_step l1 None) (k, e))).
  assert (Hstep : oldest_step (fold_left oldest_step l1 None) (k, e)
                  = Some (k, lastAccessed e)).
  { destruct (fold_left oldest_step l1 None) as [[k1 t1]|] eqn:E; [|reflexivity].
    apply oldest_loop_spec in E. destruct E as [[E|[e1 [Hin He1]]] _]; [discriminate|].
    simpl. specialize (H1 k1 e1 Hin). subst t1.
    replace (lastAccessed e <? lastAccessed e1)%Z with true; [reflexivity|].
    symmetry. now apply Z.ltb_lt. }
  rewrite Hstep. now apply oldest_loop_keeps.
Qed.

Lemma get_size c (now : Z) k : (size (snd (get c now k)) <= size c)%Z.
Proof.
  unfold get. destruct (JsMap.get k (cache c)) as [e|] eqn:E; [|simpl; lia].
  destruct (expiry e <=? now)%Z; unfold size; simpl.
  - apply size_delete_le.
  - rewrite size_set_present; [lia|].
    apply has_true_iff. unfold JsMap.has. now rewrite E.
Qed.
End Facts.
End CacheFacts.

(** X1.  A value stored by [set] is what [get] returns, and [has] answers
    [true], at every clock value below the entry's expiry, whatever the
    store and its capacity were. *)
Theorem set_then_get_within_ttl {T : Type} (c : SmartCache.t T)
    (tp now : Z) (key : string) (v : T) (customTTL : option Z) (t : Z) :
  (t < now + Calls.effective_ttl c customTTL)%Z ->
  fst (get (set c tp now key v customTTL) t key) = Some v
  /\ fst (has (set c tp now key v customTTL) t key) = true.
Proof.
  intros Hlive. unfold get, has. rewrite CacheFacts.set_binds.
  unfold Calls.fresh_entry. simpl expiry.
  replace (_ <=? t)%Z with false by (symmetry; apply Z.leb_gt; lia).
  now split.
Qed.

Lemma set_then_get_within_ttl_witness :
  (999 < 0 + Calls.effective_ttl Examples.cache_cap0 None)%Z
  /\ fst (get (set Examples.cache_cap0 0 0 "a" "1" None) 999 "a") = Some "1".
Proof.
  assert (H : (999 < 0 + Calls.effective_ttl Examples.cache_cap0 None)%Z)
    by (simpl; lia).
  split; [exact H|].
  exact (proj1 (set_then_get_within_ttl Examples.cache_cap0 0 0 "a" "1" None 999 H)).
Defined.

(** X2.  [get] never returns an expired or unbound value: whenever it
    answers [v] at clock value [now], the key is bound to an entry with
    that value whose expiry lies after [now]; the same holds when [has]
    answers [true]. *)
Theorem get_returns_only_live_entries {T : Type} (c : SmartCache.t T)
    (now : Z) (k : string) :
  (forall v, fst (get c now k) = Some v ->
     exists e, JsMap.get k (cache c) = Some e /\ value e = v /\ (now < expiry e)%Z)
  /\ (fst (has c now k) = true ->
      exists e, JsMap.get k (cache c) = Some e /\ (now < expiry e)%Z).
Proof.
  unfold get, has. destruct (JsMap.get k (cache c)) as [e|]; [|split; [intros v|]; discriminate].
  destruct (Z.leb_spec (expiry e) now) as [Hexp|Hlive]; simpl.
  - split; [intros v|]; discriminate.
  - split.
    + intros v E. injection E as <-. eauto.
    + intros _. eauto.
Qed.

Lemma get_returns_only_live_entries_witness :
  fst (get Examples.cache_x 99 "x") = Some "v"
  /\ exists e, JsMap.get "x" (cache Examples.cache_x) = Some e
               /\ value e = "v" /\ (99 < expiry e)%Z.
Proof.
  split; [reflexivity|].
  exact (proj1 (get_returns_only_live_entries Examples.cache_x 99 "x") "v" eq_refl).
Defined.

(** X3.  A hit of [get] changes one thing: the [lastAccessed] of the entry
    read becomes the clock value.  Its value and expiry, the order of the
    keys, the size and every other entry stay as they were. *)
Theorem get_hit_refreshes_recency_only {T : Type} (c : SmartCache.t T)
    (now : Z) (k : string) (e : CacheEntry T) :
  JsMap.get k (cache c) = Some e ->
  (now < expiry e)%Z ->
  JsMap.get k (cache (snd (get c now k)))
    = Some {| value := value e; expiry := expiry e; lastAccessed := now |}
  /\ JsMap.keys (cache (snd (get c now k))) = JsMap.keys (cache c)
  /\ size (snd (get c now k)) = size c
  /\ (forall k', k' <> k ->
        JsMap.get k' (cache (snd (get c now k))) = JsMap.get k' (cache c)).
Proof.
  intros Hget Hlive. unfold get. rewrite Hget.
  replace (expiry e <=? now)%Z with false by (symmetry; apply Z.leb_gt; lia).
  simpl snd. simpl cache.
  assert (Hin : In k (JsMap.keys (cache c))).
  { apply JsMapFacts.has_true_iff. unfold JsMap.has. now rewrite Hget. }
  split; [apply JsMapFacts.get_set_same|].
  split; [now apply JsMapFacts.keys_set_present|].
  split; [unfold size; simpl cache; now apply JsMapFacts.size_set_present|].
  intros k' Hne. now apply JsMapFacts.get_set_other.
Qed.

Lemma get_hit_refreshes_recency_only_witness :
  JsMap.get "a" (cache Examples.cache_ab) = Some (Examples.entry "1" 1000 0)
  /\ (7 < expiry (Examples.entry "1" 1000 0))%Z
  /\ JsMap.get "a" (cache (snd (get Examples.cache_ab 7 "a")))
     = Some (Examples.entry "1" 1000 7)
  /\ JsMap.keys (cache (snd (get Examples.cache_ab 7 "a"))) = ["a"; "b"].
Proof.
  assert (H : (7 < expiry (Examples.entry "1" 1000 0))%Z) by (simpl; lia).
  destruct (get_hit_refreshes_recency_only Examples.cache_ab 7 "a"
              (Examples.entry "1" 1000 0) eq_refl H) as [H1 [H2 _]].
  split; [reflexivity|]. split; [exact H|]. split; [exact H1|].
  rewrite H2. reflexivity.
Defined.

(** X4.  [has] answers [true] exactly when [get] would return a value, and
    it never touches recency: when it answers [true] the cache is left as
    it was, and when it answers [false] the cache is left as [get] would
    leave it. *)
Theorem has_agrees_with_get {T : Type} (c : SmartCache.t T) (now : Z) (k : string) :
  (fst (has c now k) = true <-> fst (get c now k) <> None)
  /\ (fst (has c now k) = true -> snd (has c now k) = c)
  /\ (fst (has c now k) = false -> snd (has c now k) = snd (get c now k)).
Proof.
  unfold has, get. destruct (JsMap.get k (cache c)) as [e|].
  - destruct (expiry e <=? now)%Z; simpl; repeat split; congruence.
  - simpl. repeat split; congruence.
Qed.

Module PruneFacts.
Import JsMapFacts SmartCacheFacts Spec.
Section Facts.
Context {V : Type}.

(** Lookup in a filtered store with distinct keys. *)
Lemma get_filter_wf (f : string * V -> bool) (m : JsMap.t V) (k : string) :
  JsMap.wf m ->
  JsMap.get k (filter f m) =
  match JsMap.get k m with
  | Some v => if f (k, v) then Some v else None
  | None => None
  end.
Proof.
  unfold JsMap.wf. induction m as [|[k' v'] m IH]; simpl; intros Hnd; [reflexivity|].
  inversion Hnd as [|? ? Hnotin Hnd']; subst.
  destruct (String.eqb_spec k k') as [->|Hne].
  - destruct (f (k', v')) eqn:Hf; simpl.
    + now rewrite String.eqb_refl.
    + apply get_None_iff. intros H. apply Hnotin. eapply keys_filter_incl, H.
  - destruct (f (k', v')); simpl.
    + apply String.eqb_neq in Hne. rewrite Hne. now apply IH.
    + now apply IH.
Qed.
End Facts.
End PruneFacts.

(** X5.  On a store with distinct keys, [prune] removes exactly the
    entries whose expiry is at or before the clock value, keeps the others
    unchanged and in order, and returns the number of entries it removed. *)
Theorem prune_removes_exactly_expired {T : Type} (c : SmartCache.t T) (now : Z) :
  JsMap.wf (cache c) ->
  cache (snd (prune c now)) = filter (fun ke => negb (Spec.expired now ke)) (cache c)
  /\ fst (prune c now) = (size c - size (snd (prune c now)))%Z
  /\ (forall k e, JsMap.get k (cache c) = Some e -> (now < expiry e)%Z ->
                  JsMap.get k (cache (snd (prune c now))) = Some e)
  /\ (forall k e, JsMap.get k (cache c) = Some e -> (expiry e <= now)%Z ->
                  JsMap.get k (cache (snd (prune c now))) = None).
Proof.
  intros Hw. rewrite SmartCacheFacts.prune_filter by assumption.
  simpl fst. simpl snd. simpl cache. split; [reflexivity|]. split; [|split].
  - unfold size, JsMap.size. simpl cache.
    pose proof (SmartCacheFacts.length_filter_split (Spec.expired now) (cache c)). lia.
  - intros k e Hget Hlive. rewrite PruneFacts.get_filter_wf, Hget by assumption.
    unfold Spec.expired. simpl.
    replace (expiry e <=? now)%Z with false by (symmetry; apply Z.leb_gt; lia).
    reflexivity.
  - intros k e Hget Hexp. rewrite PruneFacts.get_filter_wf, Hget by assumption.
    unfold Spec.expired. simpl.
    replace (expiry e <=? now)%Z with true by (symmetry; apply Z.leb_le; lia).
    reflexivity.
Qed.

Lemma prune_removes_exactly_expired_witness :
  JsMap.wf (cache Examples.cache_mixed)
  /\ fst (prune Examples.cache_mixed 10) = 1%Z
  /\ JsMap.keys (cache (snd (prune Examples.cache_mixed 10))) = ["a.md"; "b.txt"].
Proof.
  assert (Hw : JsMap.wf (cache Examples.cache_mixed)).
  { repeat constructor; simpl; intuition discriminate. }
  destruct (prune_removes_exactly_expired Examples.cache_mixed 10 Hw) as [Hc [Hn _]].
  split; [exact Hw|]. split.
  - rewrite Hn. unfold size. rewrite Hc. reflexivity.
  - rewrite Hc. reflexivity.
Defined.

(** X6.  A sweep leaves nothing for a sweep at the same or an earlier
    clock value: pruning again removes no entry and returns 0. *)
Theorem prune_again_removes_nothing {T : Type} (c : SmartCache.t T) (t t' : Z) :
  JsMap.wf (cache c) ->
  (t' <= t)%Z ->
  prune (snd (prune c t)) t' = (0%Z, snd (prune c t)).
Proof.
  intros Hw Hle.
  pose proof (SmartCacheFacts.prune_wf c t Hw) as Hw1.
  rewrite (SmartCacheFacts.prune_filter (snd (prune c t)) t' Hw1).
  assert (Hall : forall ke, In ke (cache (snd (prune c t))) ->
                            negb (Spec.expired t' ke) = true).
  { intros [k e] Hin. apply SmartCacheFacts.prune_In in Hin.
    unfold Spec.expired. simpl. apply negb_true_iff, Z.leb_gt. lia. }
  f_equal.
  - pose proof (SmartCacheFacts.length_filter_split (Spec.expired t')
                  (cache (snd (prune c t)))) as Hsplit.
    rewrite (InvalidateFacts.filter_all _ _ Hall) in Hsplit. lia.
  - rewrite (InvalidateFacts.filter_all _ _ Hall).
    apply InvalidateFacts.with_cache_same.
Qed.

Lemma prune_again_removes_nothing_witness :
  JsMap.wf (cache Examples.cache_mixed)
  /\ (3 <= 10)%Z
  /\ fst (prune (snd (prune Examples.cache_mixed 10)) 3) = 0%Z.
Proof.
  assert (Hw : JsMap.wf (cache Examples.cache_mixed)).
  { repeat constructor; simpl; intuition discriminate. }
  assert (Hle : (3 <= 10)%Z) by lia.
  split; [exact Hw|]. split; [exact Hle|].
  now rewrite (prune_again_removes_nothing Examples.cache_mixed 10 3 Hw Hle).
Defined.

(** X7.  Among the entries with the least [lastAccessed], [evictLRU]
    removes the one met first in iteration order: if every entry before
    [(k, e)] in the store was accessed strictly later than [e] and none
    after it strictly earlier, the key removed is [k]. *)
Theorem evictLRU_takes_first_least_recent {T : Type} (c : SmartCache.t T)
    (l1 l2 : list (string * CacheEntry T)) (k : string) (e : CacheEntry T) :
  cache c = (l1 ++ (k, e) :: l2)%list ->
  (forall k' e', In (k', e') l1 -> (lastAccessed e < lastAccessed e')%Z) ->
  (forall k' e', In (k', e') l2 -> (lastAccessed e <= lastAccessed e')%Z) ->
  evictLRU c = with_cache c (JsMap.delete k (cache c)).
Proof.
  intros Hc H1 H2. unfold evictLRU. rewrite Hc.
  now rewrite (CacheFacts.find_oldest_first_min l1 l2 k e H1 H2).
Qed.

Lemma evictLRU_takes_first_least_recent_witness :
  cache Examples.cache_tie
    = ([("p", Examples.entry "1" 100 9)]
       ++ ("q", Examples.entry "2" 100 4) :: [("r", Examples.entry "3" 100 4)])%list
  /\ JsMap.keys (cache (evictLRU Examples.cache_tie)) = ["p"; "r"].
Proof.
  split; [reflexivity|].
  rewrite (evictLRU_takes_first_least_recent Examples.cache_tie
             [("p", Examples.entry "1" 100 9)] [("r", Examples.entry "3" 100 4)]
             "q" (Examples.entry "2" 100 4) eq_refl).
  - reflexivity.
  - intros k' e' [E|[]]. injection E as _ <-. simpl. lia.
  - intros k' e' [E|[]]. injection E as _ <-. simpl. lia.
Defined.

(** X8.  [evictLRU] never removes an entry while the store holds another
    one accessed strictly earlier: on a store with distinct keys, an entry
    that is not the least recently accessed survives the eviction
    unchanged. *)
Theorem evictLRU_spares_more_recent {T : Type} (c : SmartCache.t T)
    (k k' : string) (e e' : CacheEntry T) :
  JsMap.wf (cache c) ->
  JsMap.get k (cache c) = Some e ->
  JsMap.get k' (cache c) = Some e' ->
  (lastAccessed e' < lastAccessed e)%Z ->
  JsMap.get k (cache (evictLRU c)) = Some e.
Proof.
  intros Hw Hget Hget' Hlt.
  assert (Hne : cache c <> []).
  { intros E. rewrite E in Hget. discriminate. }
  destruct (EvictionFacts.evictLRU_spec c Hne) as [victim [ve [Hin [Hmin ->]]]].
  simpl cache. rewrite JsMapFacts.get_delete_other; [assumption|].
  intros ->. apply (JsMapFacts.In_get _ _ _ Hw) in Hin.
  assert (ve = e) by congruence. subst ve.
  specialize (Hmin k' e' (JsMapFacts.get_In _ _ _ Hget')). lia.
Qed.

Lemma evictLRU_spares_more_recent_witness :
  JsMap.wf (cache Examples.cache_ab)
  /\ JsMap.get "b" (cache (evictLRU Examples.cache_ab))
     = Some (Examples.entry "2" 1001 1).
Proof.
  assert (Hw : JsMap.wf (cache Examples.cache_ab)).
  { repeat constructor; simpl; intuition discriminate. }
  split; [exact Hw|].
  apply (evictLRU_spares_more_recent Examples.cache_ab "b" "a"
           (Examples.entry "2" 1001 1) (Examples.entry "1" 1000 0) Hw eq_refl eq_refl).
  simpl. lia.
Defined.

(** X9.  A [set] on a key that is still bound after the sweep overwrites
    it in place and evicts nothing, even at or over capacity: the swept
    store keeps its keys, their order and its size, the key is bound to
    the new entry, and every other entry is as the sweep left it. *)
Theorem set_present_key_overwrites_in_place {T : Type} (c : SmartCache.t T)
    (tp now : Z) (key : string) (v : T) (customTTL : option Z) :
  JsMap.has key (cache (snd (prune c tp))) = true ->
  JsMap.keys (cache (set c tp now key v customTTL))
    = JsMap.keys (cache (snd (prune c tp)))
  /\ size (set c tp now key v customTTL) = size (snd (prune c tp))
  /\ JsMap.get key (cache (set c tp now key v customTTL))
     = Some (Calls.fresh_entry c now v customTTL)
  /\ (forall k', k' <> key ->
        JsMap.get k' (cache (set c tp now key v customTTL))
        = JsMap.get k' (cache (snd (prune c tp)))).
Proof.
  intros Hhas. split; [|split; [|split; [apply CacheFacts.set_binds|]]].
  - unfold set. rewrite Hhas, andb_false_r. simpl cache.
    apply JsMapFacts.keys_set_present. now apply JsMapFacts.has_true_iff.
  - unfold set, size. rewrite Hhas, andb_false_r. simpl cache.
    apply JsMapFacts.size_set_present. now apply JsMapFacts.has_true_iff.
  - intros k' Hne. unfold set. rewrite Hhas, andb_false_r. simpl cache.
    now apply JsMapFacts.get_set_other.
Qed.

Lemma set_present_key_overwrites_in_place_witness :
  JsMap.has "a" (cache (snd (prune Examples.cache_ab 2))) = true
  /\ JsMap.keys (cache (set Examples.cache_ab 2 2 "a" "9" None)) = ["a"; "b"].
Proof.
  split; [reflexivity|].
  rewrite (proj1 (set_present_key_overwrites_in_place
                    Examples.cache_ab 2 2 "a" "9" None eq_refl)).
  reflexivity.
Defined.

Module BoundFacts.
Import JsMapFacts SmartCacheFacts EvictionFacts.
Section Facts.
Context {T : Type}.
Implicit Types (c : SmartCache.t T).

Lemma set_size_le_max c (tp now : Z) key (v : T) (customTTL : option Z) :
  (size c <= Z.max 1 (maxSize c))%Z ->
  (size (set c tp now key v customTTL) <= Z.max 1 (maxSize c))%Z.
Proof.
  intros Hinv. unfold set.
  pose proof (prune_size_le c tp) as Hp. unfold size in *.
  pose proof (prune_maxSize c tp) as Hm.
  set (c1 := snd (prune c tp)) in *. rewrite Hm.
  destruct (Z.geb_spec (JsMap.size (cache c1)) (maxSize c)) as [Hfull|Hroom]; simpl.
  - destruct (JsMap.has key (cache c1)) eqn:Hhas; simpl.
    + apply has_true_iff in Hhas. rewrite size_set_present by assumption. lia.
    + assert (Hcase : cache c1 = [] \/ cache c1 <> []).
      { destruct (cache c1); [now left | right; discriminate]. }
      destruct Hcase as [Hnil|Hne].
      * rewrite evictLRU_empty by assumption. rewrite Hnil.
        unfold JsMap.size. simpl. lia.
      * destruct (evictLRU_spec c1 Hne) as [victim [ve [Hin [_ ->]]]].
        simpl cache. etransitivity; [apply size_set_le|].
        assert (In victim (JsMap.keys (cache c1))) as Hk.
        { change victim with (fst (victim, ve)). now apply in_map. }
        apply size_delete_present in Hk. lia.
  - etransitivity; [apply size_set_le|]. lia.
Qed.

Lemma step_size_le_max c (op : call) :
  (size c <= Z.max 1 (maxSize c))%Z ->
  (size (step c op) <= Z.max 1 (maxSize c))%Z.
Proof.
  intros Hinv.
  destruct op as [tp now key v cttl|now key|now key|p|]; simpl.
  - now apply set_size_le_max.
  - pose proof (CacheFacts.get_size c now key). lia.
  - pose proof (CacheFacts.get_size c now key) as Hg.
    unfold has, get in *. destruct (JsMap.get key (cache c)) as [e|]; [|assumption].
    destruct (expiry e <=? now)%Z; [exact (Z.le_trans _ _ _ Hg Hinv) | assumption].
  - rewrite invalidatePattern_filter. unfold size in *. simpl.
    pose proof (size_filter_le (fun kv => negb (test p (fst kv))) (cache c)). lia.
  - unfold size, clear, JsMap.size. simpl. lia.
Qed.

(** Bindings after a call come from before it, or from the call's key. *)
Lemma step_In c (op : call) k e :
  In (k, e) (cache (step c op)) ->
  In (k, e) (cache c)
  \/ Spec.is_set_of k op = true
  \/ Calls.is_get_of k op = true.
Proof.
  intros Hin.
  destruct op as [tp now key v cttl|now key|now key|p|]; simpl in *.
  - destruct (String.eqb_spec key k) as [->|Hne]; [tauto|]. left.
    apply DeadOnArrival.set_In_other in Hin; [|congruence].
    now apply prune_In in Hin.
  - unfold get in Hin. destruct (JsMap.get key (cache c)) as [e0|]; [|tauto].
    destruct (expiry e0 <=? now)%Z; simpl in Hin.
    + left. now apply In_delete in Hin.
    + destruct (String.eqb_spec key k) as [->|Hne]; [tauto|]. left.
      apply In_set_other in Hin; [assumption | congruence].
  - unfold has in Hin. destruct (JsMap.get key (cache c)) as [e0|]; [|tauto].
    destruct (expiry e0 <=? now)%Z; simpl in Hin; [|tauto].
    left. now apply In_delete in Hin.
  - rewrite invalidatePattern_filter in Hin. simpl in Hin.
    apply filter_In in Hin. tauto.
  - destruct Hin.
Qed.

Lemma get_keys c (now : Z) key k :
  In k (JsMap.keys (cache (snd (get c now key)))) -> In k (JsMap.keys (cache c)).
Proof.
  unfold get. destruct (JsMap.get key (cache c)) as [e0|] eqn:E; [|tauto].
  destruct (expiry e0 <=? now)%Z; simpl.
  - apply keys_delete_incl.
  - rewrite keys_set_present; [tauto|].
    apply has_true_iff. unfold JsMap.has. now rewrite E.
Qed.
End Facts.
End BoundFacts.

(** X10.  For any integer capacity, zero and negative values included,
    the store of a cache never holds more than [max(1, maxSize)] entries
    after any sequence of calls from its construction. *)
Theorem size_never_exceeds_max_one_capacity {T : Type} (maxSize0 ttl0 : option Z)
    (ops : list (@call T)) :
  (size (run (SmartCache.new maxSize0 ttl0) ops)
   <= Z.max 1 (maxSize (@SmartCache.new T maxSize0 ttl0)))%Z.
Proof.
  assert (Hgen : forall (c : SmartCache.t T),
            (size c <= Z.max 1 (maxSize c))%Z ->
            (size (run c ops) <= Z.max 1 (maxSize c))%Z).
  { induction ops as [|op ops IH]; intros c Hinv; [exact Hinv|].
    change (size (run (step c op) ops) <= Z.max 1 (maxSize c))%Z.
    rewrite <- (EvictionFacts.step_maxSize c op).
    apply IH. rewrite EvictionFacts.step_maxSize.
    now apply BoundFacts.step_size_le_max. }
  apply Hgen. unfold size, JsMap.size. simpl List.length. lia.
Qed.

(** X11.  Only [set] binds a key: after any other call every bound key
    was bound before, and after a [set] every bound key was bound before
    or is the key set. *)
Theorem only_set_binds_a_key {T : Type} (c : SmartCache.t T) (op : @call T)
    (k : string) :
  In k (JsMap.keys (cache (step c op))) ->
  In k (JsMap.keys (cache c)) \/ Spec.is_set_of k op = true.
Proof.
  intros Hin. destruct op as [tp now key v cttl|now key|now key|p|].
  - apply in_map_iff in Hin. destruct Hin as [[k0 e] [E Hin]]. simpl in E. subst k0.
    destruct (BoundFacts.step_In c _ k e Hin) as [H|[H|H]].
    + left. change k with (fst (k, e)). now apply in_map.
    + now right.
    + discriminate.
  - left. simpl in Hin. now apply BoundFacts.get_keys in Hin.
  - left. apply in_map_iff in Hin. destruct Hin as [[k0 e] [E Hin]]. simpl in E. subst k0.
    destruct (BoundFacts.step_In c _ k e Hin) as [H|[H|H]]; try discriminate.
    change k with (fst (k, e)). now apply in_map.
  - left. apply in_map_iff in Hin. destruct Hin as [[k0 e] [E Hin]]. simpl in E. subst k0.
    destruct (BoundFacts.step_In c _ k e Hin) as [H|[H|H]]; try discriminate.
    change k with (fst (k, e)). now apply in_map.
  - destruct Hin.
Qed.

Lemma only_set_binds_a_key_witness :
  In "b" (JsMap.keys (cache (step Examples.cache_ab (CallGet 5 "a"))))
  /\ (In "b" (JsMap.keys (cache Examples.cache_ab))
      \/ Spec.is_set_of "b" (CallGet (T:=string) 5 "a") = true).
Proof.
  assert (H : In "b" (JsMap.keys (cache (step Examples.cache_ab (CallGet 5 "a")))))
    by (simpl; tauto).
  split; [exact H|].
  exact (only_set_binds_a_key Examples.cache_ab (CallGet 5 "a") "b" H).
Defined.

(** X12.  An entry changes only through a [set] or a [get] on its own
    key: every binding found after a call was there before the call with
    the same value, expiry and [lastAccessed], unless the call is a [set]
    or a [get] on that key. *)
Theorem entries_change_only_by_own_set_or_get {T : Type} (c : SmartCache.t T)
    (op : @call T) (k : string) (e : CacheEntry T) :
  In (k, e) (cache (step c op)) ->
  Spec.is_set_of k op = false ->
  Calls.is_get_of k op = false ->
  In (k, e) (cache c).
Proof.
  intros Hin Hset Hget.
  destruct (BoundFacts.step_In c op k e Hin) as [H|[H|H]]; congruence.
Qed.

Lemma entries_change_only_by_own_set_or_get_witness :
  In ("b", Examples.entry "2" 1001 1)
     (cache (step Examples.cache_ab (CallSet 2 2 "c" "3" None)))
  /\ In ("b", Examples.entry "2" 1001 1) (cache Examples.cache_ab).
Proof.
  assert (H : In ("b", Examples.entry "2" 1001 1)
                 (cache (step Examples.cache_ab (CallSet 2 2 "c" "3" None))))
    by (vm_compute; tauto).
  split; [exact H|].
  exact (entries_change_only_by_own_set_or_get Examples.cache_ab
           (CallSet 2 2 "c" "3" None) "b" _ H eq_refl eq_refl).
Defined.

(** For patterns without flags, invalidations compose: invalidating by [p] and then by [q]
    leaves the store that one invalidation by "[p] or [q]" leaves, the two
    counts add up to its count, and invalidating by [p] a second time
    removes nothing and returns 0. *)
Lemma flagless_invalidatePattern_composes {T : Type} (c : SmartCache.t T) (p q : RegExp) :
  snd (invalidatePattern (snd (invalidatePattern c p)) q)
    = snd (invalidatePattern c (Calls.either p q))
  /\ (fst (invalidatePattern c p)
      + fst (invalidatePattern (snd (invalidatePattern c p)) q))%Z
     = fst (invalidatePattern c (Calls.either p q))
  /\ invalidatePattern (snd (invalidatePattern c p)) p
     = (0%Z, snd (invalidatePattern c p)).
Proof.
  assert (Hstore : snd (invalidatePattern (snd (invalidatePattern c p)) q)
                   = snd (invalidatePattern c (Calls.either p q))).
  { rewrite !SmartCacheFacts.invalidatePattern_filter. simpl snd. simpl cache.
    unfold with_cache. simpl. f_equal.
    rewrite SmartCacheFacts.filter_filter. apply filter_ext.
    intros ke. now rewrite negb_orb. }
  split; [exact Hstore|]. split.
  - rewrite !InvalidateFacts.invalidatePattern_count, Hstore. lia.
  - assert (Hall : forall ke, In ke (cache (snd (invalidatePattern c p))) ->
                              negb (test p (fst ke)) = true).
    { intros ke Hin. rewrite SmartCacheFacts.invalidatePattern_filter in Hin.
      simpl in Hin. apply filter_In in Hin. tauto. }
    rewrite (SmartCacheFacts.invalidatePattern_filter (snd (invalidatePattern c p)) p).
    f_equal.
    + rewrite SmartCacheFacts.length_filter_keys.
      pose proof (SmartCacheFacts.length_filter_split
                    (fun ke : string * CacheEntry T => test p (fst ke))
                    (cache (snd (invalidatePattern c p)))) as Hsplit.
      cbv beta in Hsplit.
      rewrite (InvalidateFacts.filter_all _ _ Hall) in Hsplit. lia.
    + rewrite (InvalidateFacts.filter_all _ _ Hall).
      apply InvalidateFacts.with_cache_same.
Qed.

(* ================================================================== *)
(** * Further properties of the cached file store *)

Module StoreMoreFacts.
Import Node JsMapFacts.
Section Facts.
Context {Disk : Type} (h : host Disk).

Lemma writeFile_calls (w : Utils.world Disk) (p content : string) :
  Utils.calls (snd (Utils.writeFile h w p content))
  = Utils.IoWrite p content :: Utils.calls w.
Proof.
  unfold Utils.writeFile.
  destruct (fs_mkdir h (Utils.disk w) (path_dirname h p)) as [[] d1]; [|reflexivity].
  now destruct (fs_writeFile h d1 p content).
Qed.

Lemma appendFile_calls (w : Utils.world Disk) (p content : string) :
  Utils.calls (snd (Utils.appendFile h w p content))
  = Utils.IoAppend p content :: Utils.calls w.
Proof.
  unfold Utils.appendFile.
  destruct (fs_mkdir h (Utils.disk w) (path_dirname h p)) as [[] d1]; [|reflexivity].
  now destruct (fs_appendFile h d1 p content).
Qed.

Lemma get_ttl {T : Type} (c : SmartCache.t T) (now : Z) (k : string) :
  ttl (snd (get c now k)) = ttl c.
Proof.
  unfold get. destruct (JsMap.get k (cache c)); [|reflexivity].
  now destruct (_ <=? _)%Z.
Qed.

(** A live binding makes [_readFile] answer from the cache, whatever the
    world. *)
Lemma readFile_hit (cm : ContextManager.t) (w : Utils.world Disk)
    (tg tp ts : Z) (k : string) (e : CacheEntry string) :
  JsMap.get k (cache (ContextManager.fileCache cm)) = Some e ->
  (tg < expiry e)%Z ->
  fst (fst (ContextManager._readFile h cm w tg tp ts k)) = inr (value e)
  /\ snd (ContextManager._readFile h cm w tg tp ts k) = w.
Proof.
  intros Hget Hlive. unfold ContextManager._readFile.
  pose proof (StoreFacts.get_hit (ContextManager.fileCache cm) tg k e Hget Hlive) as Hhit.
  destruct (get (ContextManager.fileCache cm) tg k) as [r c1].
  simpl in Hhit. subst r. now split.
Qed.

(** What [invalidate_exact] leaves is bound as before. *)
Lemma invalidate_exact_removes_only (cm cm' : ContextManager.t) (k k' : string)
    (e' : CacheEntry string) :
  ContextManager.invalidate_exact h cm k = inr cm' ->
  JsMap.get k' (cache (ContextManager.fileCache cm')) = Some e' ->
  JsMap.get k' (cache (ContextManager.fileCache cm)) = Some e'.
Proof.
  unfold ContextManager.invalidate_exact.
  destruct (RegExp_new h ("^" ++ k ++ "$")) as [err|p]; [discriminate|].
  intros E. injection E as <-. simpl ContextManager.fileCache.
  rewrite SmartCacheFacts.invalidatePattern_filter. simpl snd. simpl cache.
  rewrite (get_filter_keys (fun k => negb (test p k))).
  destruct (negb (test p k')); [tauto | discriminate].
Qed.


Lemma append_then_read_when_pattern_matches
    (cm : ContextManager.t) (w w' : Utils.world Disk) (k content full : string)
    (pattern : RegExp) (tg tp ts : Z) :
  RegExp_new h ("^" ++ k ++ "$") = inr pattern ->
  test pattern k = true ->
  Utils.appendFile h w k content = (inr tt, w') ->
  fs_readFile h (Utils.disk w') k = Some full ->
  exists cm',
    ContextManager._appendFile h cm w k content = (inr tt, cm', w')
    /\ fst (fst (ContextManager._readFile h cm' w' tg tp ts k)) = inr full.
Proof.
  intros Hre Hmatch Happend Hread.
  unfold ContextManager._appendFile, ContextManager.invalidate_exact.
  rewrite Happend, Hre. eexists. split; [reflexivity|].
  unfold ContextManager._readFile. simpl ContextManager.fileCache.
  rewrite SmartCacheFacts.invalidatePattern_filter. simpl snd.
  unfold get at 1. simpl cache.
  rewrite (get_filter_keys (fun k => negb (test pattern k))), Hmatch. simpl.
  unfold Utils.readFile. now rewrite Hread.
Qed.
End Facts.
End StoreMoreFacts.

(** X14.  When the pattern built from the path matches the path and the
    disk gives back what was written, a successful [_writeFile] followed
    by [_readFile] returns the content written, whatever the cache held
    for that path before. *)
Theorem write_then_read_returns_written_content {Disk : Type} (h : Node.host Disk)
    (cm : ContextManager.t) (w w' : Utils.world Disk) (k content : string)
    (pattern : RegExp) (tg tp ts : Z) :
  Node.RegExp_new h ("^" ++ k ++ "$") = inr pattern ->
  test pattern k = true ->
  Utils.writeFile h w k content = (inr tt, w') ->
  Node.fs_readFile h (Utils.disk w') k = Some content ->
  exists cm',
    ContextManager._writeFile h cm w k content = (inr tt, cm', w')
    /\ fst (fst (ContextManager._readFile h cm' w' tg tp ts k)) = inr content.
Proof. apply StoreFacts.write_then_read_when_pattern_matches. Qed.

Lemma write_then_read_returns_written_content_witness :
  exists cm',
    ContextManager._writeFile MemHost.host Examples.manager_f Examples.world_g
      "f.md" "new" = (inr tt, cm', snd (Utils.writeFile MemHost.host Examples.world_g "f.md" "new"))
    /\ fst (fst (ContextManager._readFile MemHost.host cm'
                   (snd (Utils.writeFile MemHost.host Examples.world_g "f.md" "new"))
                   10 10 10 "f.md")) = inr "new".
Proof.
  eapply (write_then_read_returns_written_content MemHost.host Examples.manager_f
            Examples.world_g _ "f.md" "new" _ 10 10 10);
    [reflexivity | reflexivity | reflexivity | reflexivity].
Defined.

(** X15.  Likewise for [_appendFile]: when the pattern matches the path, a
    successful append followed by [_readFile] returns what the disk now
    holds for the path, not the content cached before the append. *)
Theorem append_then_read_returns_disk_content {Disk : Type} (h : Node.host Disk)
    (cm : ContextManager.t) (w w' : Utils.world Disk) (k content full : string)
    (pattern : RegExp) (tg tp ts : Z) :
  Node.RegExp_new h ("^" ++ k ++ "$") = inr pattern ->
  test pattern k = true ->
  Utils.appendFile h w k content = (inr tt, w') ->
  Node.fs_readFile h (Utils.disk w') k = Some full ->
  exists cm',
    ContextManager._appendFile h cm w k content = (inr tt, cm', w')
    /\ fst (fst (ContextManager._readFile h cm' w' tg tp ts k)) = inr full.
Proof. apply StoreMoreFacts.append_then_read_when_pattern_matches. Qed.

Lemma append_then_read_returns_disk_content_witness :
  exists cm',
    ContextManager._appendFile MemHost.host Examples.manager_f Examples.world_g
      "g.md" "+more"
    = (inr tt, cm', snd (Utils.appendFile MemHost.host Examples.world_g "g.md" "+more"))
    /\ fst (fst (ContextManager._readFile MemHost.host cm'
                   (snd (Utils.appendFile MemHost.host Examples.world_g "g.md" "+more"))
                   10 10 10 "g.md")) = inr "on disk+more".
Proof.
  eapply (append_then_read_returns_disk_content MemHost.host Examples.manager_f
            Examples.world_g _ "g.md" "+more" _ _ 10 10 10);
    [reflexivity | reflexivity | reflexivity | reflexivity].
Defined.

(** X16.  The pattern is built after the storage call.  When the write
    (or append) succeeds and [new RegExp] then throws on the path, the
    method fails with that error although the disk has been updated, and
    the cache is not invalidated. *)
Theorem pattern_error_after_successful_write {Disk : Type} (h : Node.host Disk)
    (cm : ContextManager.t) (w : Utils.world Disk) (k content : string)
    (err : Node.Error) :
  Node.RegExp_new h ("^" ++ k ++ "$") = inl err ->
  (forall w', Utils.writeFile h w k content = (inr tt, w') ->
              ContextManager._writeFile h cm w k content = (inl err, cm, w'))
  /\ (forall w', Utils.appendFile h w k content = (inr tt, w') ->
                 ContextManager._appendFile h cm w k content = (inl err, cm, w')).
Proof.
  intros Hre. split; intros w' Hio.
  - unfold ContextManager._writeFile, ContextManager.invalidate_exact.
    now rewrite Hio, Hre.
  - unfold ContextManager._appendFile, ContextManager.invalidate_exact.
    now rewrite Hio, Hre.
Qed.

Lemma pattern_error_after_successful_write_witness :
  Node.RegExp_new MemHost.host ("^" ++ "/c++/f.md" ++ "$")
    = inl (Node.mkError "Invalid regular expression: /^/c++/f.md$/")
  /\ fst (fst (ContextManager._writeFile MemHost.host Examples.manager_f
                 Examples.world_g "/c++/f.md" "x"))
     = inl (Node.mkError "Invalid regular expression: /^/c++/f.md$/")
  /\ MemHost.readFile
       (Utils.disk (snd (ContextManager._writeFile MemHost.host Examples.manager_f
                           Examples.world_g "/c++/f.md" "x"))) "/c++/f.md"
     = Some "x".
Proof.
  assert (Hre : Node.RegExp_new MemHost.host ("^" ++ "/c++/f.md" ++ "$")
                = inl (Node.mkError "Invalid regular expression: /^/c++/f.md$/"))
    by reflexivity.
  destruct (pattern_error_after_successful_write MemHost.host Examples.manager_f
              Examples.world_g "/c++/f.md" "x" _ Hre) as [Hw _].
  split; [exact Hre|].
  rewrite (Hw _ eq_refl). split; reflexivity.
Defined.

(** X17.  After a read that went to the disk, the next read of the same
    path, made on the manager as that read left it (no write, append or
    other cache call in between) at a clock value below [ts + ttl] (with
    [ts] the clock read by the insertion), returns the same content and
    makes no storage call, whatever the disk holds by then. *)
Theorem read_again_within_ttl_uses_cache {Disk : Type} (h : Node.host Disk)
    (cm : ContextManager.t) (w w' : Utils.world Disk) (tg tp ts : Z)
    (k content : string) :
  fst (get (ContextManager.fileCache cm) tg k) = None ->
  Utils.readFile h w k = (inr content, w') ->
  forall (w2 : Utils.world Disk) (t tp2 ts2 : Z),
    (t < ts + ttl (ContextManager.fileCache cm))%Z ->
    fst (fst (ContextManager._readFile h
                (snd (fst (ContextManager._readFile h cm w tg tp ts k)))
                w2 t tp2 ts2 k)) = inr content
    /\ snd (ContextManager._readFile h
              (snd (fst (ContextManager._readFile h cm w tg tp ts k)))
              w2 t tp2 ts2 k) = w2.
Proof.
  intros Hmiss Hread w2 t tp2 ts2 Hlive.
  assert (Hcm : snd (fst (ContextManager._readFile h cm w tg tp ts k))
                = {| ContextManager.fileCache :=
                       set (snd (get (ContextManager.fileCache cm) tg k))
                           tp ts k content None |}).
  { unfold ContextManager._readFile.
    destruct (get (ContextManager.fileCache cm) tg k) as [r c1].
    simpl in Hmiss. subst r. now rewrite Hread. }
  rewrite Hcm.
  apply (StoreMoreFacts.readFile_hit h _ w2 t tp2 ts2 k
           (Calls.fresh_entry (snd (get (ContextManager.fileCache cm) tg k))
              ts content None)).
  - apply CacheFacts.set_binds.
  - unfold Calls.fresh_entry, Calls.effective_ttl. simpl expiry.
    now rewrite StoreMoreFacts.get_ttl.
Qed.

Lemma read_again_within_ttl_uses_cache_witness :
  fst (get (ContextManager.fileCache Examples.manager_f) 10 "g.md") = None
  /\ (500 < 10 + ttl (ContextManager.fileCache Examples.manager_f))%Z
  /\ ContextManager._readFile MemHost.host
       (snd (fst (ContextManager._readFile MemHost.host Examples.manager_f
                    Examples.world_g 10 10 10 "g.md")))
       (MemHost.world0 [("g.md", "changed")] []) 500 500 500 "g.md"
     = (inr "on disk",
        snd (fst (ContextManager._readFile MemHost.host
          (snd (fst (ContextManager._readFile MemHost.host Examples.manager_f
                       Examples.world_g 10 10 10 "g.md")))
          (MemHost.world0 [("g.md", "changed")] []) 500 500 500 "g.md")),
        MemHost.world0 [("g.md", "changed")] []).
Proof.
  assert (Hlive : (500 < 10 + ttl (ContextManager.fileCache Examples.manager_f))%Z)
    by (simpl; lia).
  destruct (read_again_within_ttl_uses_cache MemHost.host Examples.manager_f
              Examples.world_g _ 10 10 10 "g.md" "on disk" eq_refl eq_refl
              (MemHost.world0 [("g.md", "changed")] []) 500 500 500 Hlive)
    as [Hr Hw].
  split; [reflexivity|]. split; [exact Hlive|].
  destruct (ContextManager._readFile MemHost.host _ _ 500 500 500 "g.md")
    as [[r cm2] w2] in *.
  simpl in Hr, Hw. now subst.
Defined.

(** X18.  [_writeFile] and [_appendFile] make exactly one storage call,
    the write or the append of the content to the path, and only ever
    remove cache entries: every binding found in the cache afterwards was
    there before, unchanged. *)
Theorem write_and_append_only_remove_entries {Disk : Type} (h : Node.host Disk)
    (cm : ContextManager.t) (w : Utils.world Disk) (k content : string) :
  Utils.calls (snd (ContextManager._writeFile h cm w k content))
    = Utils.IoWrite k content :: Utils.calls w
  /\ (forall k' e',
        JsMap.get k' (cache (ContextManager.fileCache
          (snd (fst (ContextManager._writeFile h cm w k content))))) = Some e' ->
        JsMap.get k' (cache (ContextManager.fileCache cm)) = Some e')
  /\ Utils.calls (snd (ContextManager._appendFile h cm w k content))
     = Utils.IoAppend k content :: Utils.calls w
  /\ (forall k' e',
        JsMap.get k' (cache (ContextManager.fileCache
          (snd (fst (ContextManager._appendFile h cm w k content))))) = Some e' ->
        JsMap.get k' (cache (ContextManager.fileCache cm)) = Some e').
Proof.
  pose proof (StoreMoreFacts.writeFile_calls h w k content) as Hwc.
  pose proof (StoreMoreFacts.appendFile_calls h w k content) as Hac.
  unfold ContextManager._writeFile, ContextManager._appendFile.
  destruct (Utils.writeFile h w k content) as [[err|[]] w1];
    destruct (Utils.appendFile h w k content) as [[err'|[]] w2];
    simpl in Hwc, Hac;
    destruct (ContextManager.invalidate_exact h cm k) as [e0|cm'] eqn:Hinv;
    simpl; repeat split; auto;
    intros k' e'; apply (StoreMoreFacts.invalidate_exact_removes_only h cm cm' k k' e' Hinv).
Qed.

(** X19.  [writeFile] and [appendFile] of [utils.ts] succeed exactly when
    both the [mkdir] of the parent directory and the file operation
    succeed; every failure is reported as the same error, which names only
    the base name of the path; and when [mkdir] fails the file operation
    is not attempted. *)
Theorem utils_write_reports_one_error {Disk : Type} (h : Node.host Disk)
    (w : Utils.world Disk) (p content : string) :
  let made := Node.fs_mkdir h (Utils.disk w) (Node.path_dirname h p) in
  (fst (Utils.writeFile h w p content) = inr tt
   \/ fst (Utils.writeFile h w p content)
      = inl (Node.mkError ("Could not write to file: " ++ Node.path_basename h p)))
  /\ (fst (Utils.writeFile h w p content) = inr tt <->
      fst made = true /\ fst (Node.fs_writeFile h (snd made) p content) = true)
  /\ (fst made = false ->
      Utils.disk (snd (Utils.writeFile h w p content)) = snd made)
  /\ (fst (Utils.appendFile h w p content) = inr tt
      \/ fst (Utils.appendFile h w p content)
         = inl (Node.mkError ("Could not append to file: " ++ Node.path_basename h p)))
  /\ (fst (Utils.appendFile h w p content) = inr tt <->
      fst made = true /\ fst (Node.fs_appendFile h (snd made) p content) = true)
  /\ (fst made = false ->
      Utils.disk (snd (Utils.appendFile h w p content)) = snd made).
Proof.
  intros made. subst made. unfold Utils.writeFile, Utils.appendFile.
  destruct (Node.fs_mkdir h (Utils.disk w) (Node.path_dirname h p)) as [[] d1];
    simpl fst; simpl snd.
  - destruct (Node.fs_writeFile h d1 p content) as [[] d2];
      destruct (Node.fs_appendFile h d1 p content) as [[] d3];
      simpl; repeat split; auto; try tauto; try discriminate;
      intros [_ H]; discriminate.
  - simpl. repeat split; auto; try discriminate; intros [H _]; discriminate.
Qed.

(* ================================================================== *)
(** * Properties of the context files *)

Module ContextFilesFacts.
Import ContextFiles.

Lemma append_sep_nonempty (x sep s : string) :
  sep <> EmptyString -> x ++ sep ++ s <> EmptyString.
Proof.
  intros Hsep. destruct x as [|c x]; simpl; [|discriminate].
  destruct sep as [|c sep]; [congruence | discriminate].
Qed.

(** Joining with a non-empty separator gives the empty string only for no
    item or a single empty item. *)
Lemma join_empty_iff (sep : string) (l : list string) :
  sep <> EmptyString ->
  (join sep l = EmptyString <-> l = [] \/ l = [EmptyString]).
Proof.
  intros Hsep. destruct l as [|x [|y l]]; simpl.
  - split; [now left | reflexivity].
  - split; [intros ->; now right | intros [H|H]; [discriminate | congruence]].
  - split.
    + intros H. exfalso. revert H. now apply append_sep_nonempty.
    + intros [H|H]; discriminate.
Qed.
End ContextFilesFacts.



(** X21.  In the session log, a list is shown as [N/A] when it is absent,
    empty or made of one empty string, the cases in which the joined text
    is empty; any other list is shown as its items separated by a comma
    and a space. *)
Theorem session_log_list_rendering (xs : option (list string)) :
  (xs = None \/ xs = Some [] \/ xs = Some [EmptyString] ->
   ContextFiles.joined_or_na xs = "N/A")
  /\ (forall l, xs = Some l -> l <> [] -> l <> [EmptyString] ->
        ContextFiles.joined_or_na xs = ContextFiles.join ", " l).
Proof.
  split.
  - intros [->|[->| ->]]; reflexivity.
  - intros l -> Hne Hne1. unfold ContextFiles.joined_or_na.
    destruct (ContextFiles.join ", " l) eqn:E; [|reflexivity].
    apply ContextFilesFacts.join_empty_iff in E; [tauto | discriminate].
Qed.

Lemma session_log_list_rendering_witness :
  ContextFiles.joined_or_na (ContextFiles.completed MemHostMore.args_empty) = "N/A"
  /\ ContextFiles.joined_or_na (Some ["a"; ""; "b"]) = "a, , b".
Proof.
  split.
  - apply (proj1 (session_log_list_rendering (Some [EmptyString]))).
    right. now right.
  - rewrite (proj2 (session_log_list_rendering (Some ["a"; ""; "b"]))
               ["a"; ""; "b"] eq_refl); [reflexivity | discriminate | discriminate].
Defined.

(** X22.  After a successful [updateCurrentStateFile] (resp.
    [updateActiveContextFile]), reading the state file (resp. the active
    context file) returns the content just rendered from the arguments,
    provided the pattern built from the path matches it and the disk
    gives back what was written. *)
Theorem update_then_read_returns_rendered_content {Disk : Type}
    (h : Node.host Disk) (x : HostMore.ops Disk) (contextDir : string)
    (cm : ContextManager.t) (w w' : Utils.world Disk)
    (args : ContextFiles.UpdateArgs) (timestamp : string)
    (pattern : RegExp) (tg tp ts : Z) :
  (let path := HostMore.path_join x contextDir "CURRENT_STATE.md" in
   let content := ContextFiles.currentStateContent args timestamp in
   Node.RegExp_new h ("^" ++ path ++ "$") = inr pattern ->
   test pattern path = true ->
   Utils.writeFile h w path content = (inr tt, w') ->
   Node.fs_readFile h (Utils.disk w') path = Some content ->
   exists cm',
     ContextFiles.updateCurrentStateFile h x contextDir cm w args timestamp
       = (inr tt, cm', w')
     /\ fst (fst (ContextManager._readFile h cm' w' tg tp ts path)) = inr content)
  /\ (let path := HostMore.path_join x contextDir "ACTIVE_CONTEXT.md" in
      let content := ContextFiles.activeContextContent args timestamp in
      Node.RegExp_new h ("^" ++ path ++ "$") = inr pattern ->
      test pattern path = true ->
      Utils.writeFile h w path content = (inr tt, w') ->
      Node.fs_readFile h (Utils.disk w') path = Some content ->
      exists cm',
        ContextFiles.updateActiveContextFile h x contextDir cm w args timestamp
          = (inr tt, cm', w')
        /\ fst (fst (ContextManager._readFile h cm' w' tg tp ts path)) = inr content).
Proof.
  split; intros path content Hre Hmatch Hwrite Hread;
    exact (StoreFacts.write_then_read_when_pattern_matches h cm w w' path content
             pattern tg tp ts Hre Hmatch Hwrite Hread).
Qed.

Lemma update_then_read_returns_rendered_content_witness :
  exists cm',
    ContextFiles.updateCurrentStateFile MemHost.host MemHostMore.ops "/w/.context"
      Examples.manager_f MemHostMore.world_dna MemHostMore.args_empty "T"
    = (inr tt, cm',
       snd (Utils.writeFile MemHost.host MemHostMore.world_dna
              "/w/.context/CURRENT_STATE.md"
              (ContextFiles.currentStateContent MemHostMore.args_empty "T")))
    /\ fst (fst (ContextManager._readFile MemHost.host cm'
                   (snd (Utils.writeFile MemHost.host MemHostMore.world_dna
                           "/w/.context/CURRENT_STATE.md"
                           (ContextFiles.currentStateContent MemHostMore.args_empty "T")))
                   1 1 1 "/w/.context/CURRENT_STATE.md"))
       = inr (ContextFiles.currentStateContent MemHostMore.args_empty "T").
Proof.
  eapply (proj1 (update_then_read_returns_rendered_content MemHost.host MemHostMore.ops
                   "/w/.context" Examples.manager_f MemHostMore.world_dna _
                   MemHostMore.args_empty "T" _ 1 1 1));
    [vm_compute; reflexivity | vm_compute; reflexivity
     | vm_compute; reflexivity | vm_compute; reflexivity].
Defined.

(* ================================================================== *)
(** * One eviction at most *)

(** X23.  Beyond what its sweep removes, a [set] drops at most one entry:
    on a store with distinct keys the result holds as many entries as the
    swept store or one more, and there is at most one key, other than the
    key set, whose binding in the swept store is not found unchanged in
    the result. *)
Theorem set_evicts_at_most_one {T : Type} (c : SmartCache.t T)
    (tp now : Z) (key : string) (v : T) (customTTL : option Z) :
  JsMap.wf (cache c) ->
  (size (snd (prune c tp)) <= size (set c tp now key v customTTL)
   <= size (snd (prune c tp)) + 1)%Z
  /\ exists victim : option string,
       forall k, k <> key -> victim <> Some k ->
         JsMap.get k (cache (set c tp now key v customTTL))
         = JsMap.get k (cache (snd (prune c tp))).
Proof.
  intros Hw. pose proof (SmartCacheFacts.prune_wf c tp Hw) as Hw1.
  unfold set, size. set (c1 := snd (prune c tp)) in *.
  destruct ((JsMap.size (cache c1) >=? maxSize c1)%Z
            && negb (JsMap.has key (cache c1))) eqn:Hcond.
  - apply andb_prop in Hcond. destruct Hcond as [_ Hnew].
    apply negb_true_iff, JsMapFacts.has_false_iff in Hnew.
    assert (Hcase : cache c1 = [] \/ cache c1 <> []).
    { destruct (cache c1); [now left | right; discriminate]. }
    destruct Hcase as [Hnil|Hne].
    + rewrite EvictionFacts.evictLRU_empty by assumption. split.
      * simpl cache. rewrite JsMapFacts.size_set_absent by assumption. lia.
      * exists None. intros k Hk _. now apply JsMapFacts.get_set_other.
    + destruct (EvictionFacts.evictLRU_spec c1 Hne) as [victim [ve [Hin [_ ->]]]].
      simpl cache.
      assert (Hvk : In victim (JsMap.keys (cache c1))).
      { change victim with (fst (victim, ve)). now apply in_map. }
      split.
      * rewrite JsMapFacts.size_set_absent.
        -- rewrite JsMapFacts.size_delete_wf by assumption. lia.
        -- intros H. apply JsMapFacts.keys_delete_incl in H. tauto.
      * exists (Some victim). intros k Hk Hv.
        rewrite JsMapFacts.get_set_other by assumption.
        apply JsMapFacts.get_delete_other. congruence.
  - split.
    + simpl cache.
      destruct (in_dec string_dec key (JsMap.keys (cache c1))) as [Hin|Hnin].
      * rewrite JsMapFacts.size_set_present by assumption. lia.
      * rewrite JsMapFacts.size_set_absent by assumption. lia.
    + exists None. intros k Hk _. now apply JsMapFacts.get_set_other.
Qed.

Lemma set_evicts_at_most_one_witness :
  JsMap.wf (cache Examples.cache_ab)
  /\ (size (snd (prune Examples.cache_ab 2))
      <= size (set Examples.cache_ab 2 2 "c" "3" None)
      <= size (snd (prune Examples.cache_ab 2)) + 1)%Z.
Proof.
  assert (Hw : JsMap.wf (cache Examples.cache_ab)).
  { repeat constructor; simpl; intuition discriminate. }
  split; [exact Hw|].
  exact (proj1 (set_evicts_at_most_one Examples.cache_ab 2 2 "c" "3" None Hw)).
Defined.

(* ================================================================== *)
(** * [invalidatePattern] and the flags of the pattern *)

Module StatefulFacts.
Import StatefulPattern.

Lemma test_flagless (p : RegExpObject) (key : string) :
  flagless p = true -> StatefulPattern.test p key = (matches p key, p).
Proof.
  unfold flagless, StatefulPattern.test, matches. intros H.
  apply negb_true_iff in H. now rewrite H.
Qed.

Lemma loop_flagless {T : Type} (p : RegExpObject) (l : list string)
    (m : JsMap.t (CacheEntry T)) (n : Z) :
  flagless p = true ->
  fold_left StatefulPattern.invalidate_step l (m, n, p) =
  (fold_left (SmartCache.invalidate_step (as_function p)) l (m, n), p).
Proof.
  intros Hp. revert m n. induction l as [|k l IH]; intros m n; [reflexivity|].
  change (fold_left StatefulPattern.invalidate_step l
            (StatefulPattern.invalidate_step (m, n, p) k)
          = (fold_left (SmartCache.invalidate_step (as_function p)) l
               (SmartCache.invalidate_step (as_function p) (m, n) k), p)).
  assert (Hstep : StatefulPattern.invalidate_step (m, n, p) k
                  = (SmartCache.invalidate_step (as_function p) (m, n) k, p)).
  { unfold StatefulPattern.invalidate_step, SmartCache.invalidate_step.
    rewrite (test_flagless p k Hp). simpl SmartCache.test.
    now destruct (matches p k). }
  rewrite Hstep.
  destruct (SmartCache.invalidate_step (as_function p) (m, n) k) as [m' n'].
  apply IH.
Qed.

(** On a pattern without flags the two embeddings of [invalidatePattern]
    agree, and the pattern object is left as it was. *)
Lemma invalidatePattern_flagless {T : Type} (c : SmartCache.t T) (p : RegExpObject) :
  flagless p = true ->
  StatefulPattern.invalidatePattern c p =
  (SmartCache.invalidatePattern c (as_function p), p).
Proof.
  intros Hp. unfold StatefulPattern.invalidatePattern, SmartCache.invalidatePattern.
  rewrite (loop_flagless p _ _ _ Hp).
  now destruct (fold_left (SmartCache.invalidate_step (as_function p))
                  (JsMap.keys (cache c)) (cache c, 0%Z)).
Qed.

(** [SmartCache.invalidatePattern] depends on the pattern through the
    value of [test] on the keys only. *)
Lemma invalidatePattern_ext {T : Type} (c : SmartCache.t T) (a b : RegExp) :
  (forall k, SmartCache.test a k = SmartCache.test b k) ->
  SmartCache.invalidatePattern c a = SmartCache.invalidatePattern c b.
Proof.
  intros H. rewrite !SmartCacheFacts.invalidatePattern_filter. f_equal.
  - f_equal. f_equal. apply filter_ext. exact H.
  - f_equal. apply filter_ext. intros ke. now rewrite H.
Qed.
End StatefulFacts.

(** C7, as amended.  For every pattern without the [g] or [y] flag and
    every cache state, [invalidatePattern(pattern)] leaves exactly the
    entries whose key the pattern does not match, unchanged and in order;
    it unbinds every matching key; it returns the number of entries
    removed, which is the number of matching keys; it leaves the pattern
    object as it was.  On a store with distinct keys a pattern that
    matches exactly one bound key removes that key alone and returns 1; a
    pattern that matches no bound key returns 0 and changes nothing. *)
Theorem invalidatePattern_removes_exactly_matches {T : Type}
    (c : SmartCache.t T) (p : StatefulPattern.RegExpObject) :
  StatefulPattern.flagless p = true ->
  let r := StatefulPattern.invalidatePattern c p in
  let n := fst (fst r) in
  let c' := snd (fst r) in
  snd r = p
  /\ cache c' = filter (fun ke => negb (StatefulPattern.matches p (fst ke))) (cache c)
  /\ maxSize c' = maxSize c
  /\ ttl c' = ttl c
  /\ (forall k, StatefulPattern.matches p k = true -> JsMap.get k (cache c') = None)
  /\ (forall k, StatefulPattern.matches p k = false ->
                JsMap.get k (cache c') = JsMap.get k (cache c))
  /\ n = (size c - size c')%Z
  /\ n = Z.of_nat (List.length
                     (filter (StatefulPattern.matches p) (JsMap.keys (cache c))))
  /\ (forall k, JsMap.wf (cache c) -> In k (JsMap.keys (cache c)) ->
                StatefulPattern.matches p k = true ->
                (forall k', In k' (JsMap.keys (cache c)) ->
                            StatefulPattern.matches p k' = true -> k' = k) ->
                n = 1%Z /\ cache c' = JsMap.delete k (cache c))
  /\ ((forall k, In k (JsMap.keys (cache c)) -> StatefulPattern.matches p k = false) ->
      n = 0%Z /\ c' = c).
Proof.
  intros Hp r n c'. subst r n c'.
  rewrite (StatefulFacts.invalidatePattern_flagless c p Hp).
  simpl fst. simpl snd. split; [reflexivity|].
  exact (flagless_invalidatePattern_exact c (StatefulPattern.as_function p)).
Qed.

Lemma invalidatePattern_removes_exactly_matches_witness :
  StatefulPattern.flagless PatternExamples.md_plain = true
  /\ fst (fst (StatefulPattern.invalidatePattern Examples.cache_mixed
                 PatternExamples.md_plain)) = 2%Z
  /\ cache (snd (fst (StatefulPattern.invalidatePattern Examples.cache_mixed
                        PatternExamples.md_plain)))
     = [("b.txt", Examples.entry "b" 100 2)].
Proof.
  assert (Hp : StatefulPattern.flagless PatternExamples.md_plain = true) by reflexivity.
  destruct (invalidatePattern_removes_exactly_matches Examples.cache_mixed
              PatternExamples.md_plain Hp)
    as [_ [Hcache [_ [_ [_ [_ [_ [Hn _]]]]]]]].
  split; [exact Hp|]. split.
  - rewrite Hn. reflexivity.
  - rewrite Hcache. reflexivity.
Defined.

(** C7 as stated fails for a pattern with the [g] flag.  On the store
    [old.md], [a.md], [b.txt], [/\.md$/g] matches [old.md] and is left
    with [lastIndex = 6]; the test of [a.md], of length 4, then fails and
    resets [lastIndex]: [a.md] matches the pattern and stays bound. *)
Lemma invalidatePattern_global_flag_leaves_matching_key :
  ~ (forall k, StatefulPattern.matches PatternExamples.md_global k = true ->
       JsMap.get k (cache (snd (fst (StatefulPattern.invalidatePattern
                                       Examples.cache_mixed PatternExamples.md_global))))
       = None).
Proof.
  intros H. specialize (H "a.md" eq_refl). vm_compute in H. discriminate.
Qed.

(** C10, as amended.  For every pattern without the [g] or [y] flag,
    [invalidatePattern] reads no clock and checks no expiry: at any
    instant [now], the count it returns is the number of matching entries
    already expired at [now] plus the number of matching entries still
    live.  A matching entry with [expiry <= now], which [get] and [has]
    report absent at [now], is removed and counted like any other. *)
Theorem invalidatePattern_ignores_expiry {T : Type}
    (c : SmartCache.t T) (p : StatefulPattern.RegExpObject) (now : Z) :
  StatefulPattern.flagless p = true ->
  let r := StatefulPattern.invalidatePattern c p in
  fst (fst r) =
    (Z.of_nat (List.length
       (filter (fun ke => StatefulPattern.matches p (fst ke) && Spec.expired now ke)
               (cache c)))
     + Z.of_nat (List.length
       (filter (fun ke => StatefulPattern.matches p (fst ke)
                          && negb (Spec.expired now ke)) (cache c))))%Z
  /\ (forall k e,
        JsMap.get k (cache c) = Some e -> (expiry e <= now)%Z ->
        StatefulPattern.matches p k = true ->
        fst (get c now k) = None
        /\ fst (has c now k) = false
        /\ (1 <= fst (fst r))%Z
        /\ JsMap.get k (cache (snd (fst r))) = None).
Proof.
  intros Hp r. subst r.
  rewrite (StatefulFacts.invalidatePattern_flagless c p Hp).
  simpl fst. simpl snd.
  exact (flagless_invalidatePattern_counts_expired c (StatefulPattern.as_function p) now).
Qed.

Lemma invalidatePattern_ignores_expiry_witness :
  StatefulPattern.flagless PatternExamples.md_plain = true
  /\ JsMap.get "old.md" (cache Examples.cache_mixed) = Some (Examples.entry "o" 5 0)
  /\ (expiry (Examples.entry "o" 5 0) <= 10)%Z
  /\ StatefulPattern.matches PatternExamples.md_plain "old.md" = true
  /\ fst (get Examples.cache_mixed 10 "old.md") = None
  /\ fst (has Examples.cache_mixed 10 "old.md") = false
  /\ fst (fst (StatefulPattern.invalidatePattern Examples.cache_mixed
                 PatternExamples.md_plain)) = (1 + 1)%Z.
Proof.
  assert (Hp : StatefulPattern.flagless PatternExamples.md_plain = true) by reflexivity.
  destruct (invalidatePattern_ignores_expiry Examples.cache_mixed
              PatternExamples.md_plain 10 Hp) as [Hn Habs].
  assert (Hexp : (expiry (Examples.entry "o" 5 0) <= 10)%Z) by (simpl; lia).
  destruct (Habs "old.md" (Examples.entry "o" 5 0) eq_refl Hexp eq_refl)
    as [Hget [Hhas _]].
  split; [exact Hp|]. split; [reflexivity|]. split; [exact Hexp|].
  split; [reflexivity|]. split; [exact Hget|]. split; [exact Hhas|].
  rewrite Hn. reflexivity.
Defined.

(** C10 as stated fails for a pattern with the [g] flag.  On the store
    [aa.md] (live), [old.md] (expired at 5), [/\.md$/g] matches [aa.md]
    and is left with [lastIndex = 5]; the search in [old.md] from index 5
    finds nothing.  Both keys match the pattern, yet the count returned
    is 1: the expired [old.md] is neither removed nor counted. *)
Lemma invalidatePattern_global_flag_skips_expired_match :
  ~ (fst (fst (StatefulPattern.invalidatePattern
                 PatternExamples.cache_live_then_expired PatternExamples.md_global))
     = Z.of_nat (List.length
         (filter (StatefulPattern.matches PatternExamples.md_global)
                 (JsMap.keys (cache PatternExamples.cache_live_then_expired))))).
Proof. vm_compute. discriminate. Qed.

(** What the code does at the two inputs above. *)
Example global_flag_runs :
  fst (StatefulPattern.invalidatePattern Examples.cache_mixed PatternExamples.md_global)
  = (1%Z, with_cache Examples.cache_mixed
            [("a.md", Examples.entry "a" 100 1); ("b.txt", Examples.entry "b" 100 2)])
  /\ fst (StatefulPattern.invalidatePattern PatternExamples.cache_live_then_expired
            PatternExamples.md_global)
     = (1%Z, with_cache PatternExamples.cache_live_then_expired
               [("old.md", Examples.entry "o" 5 0)])
  /\ StatefulPattern.new_RegExp "\.md$" true = Some PatternExamples.md_global
  /\ StatefulPattern.new_RegExp "\.md$" false = Some PatternExamples.md_plain.
Proof. repeat split; reflexivity. Qed.

(** X13.  For patterns without the [g] or [y] flag, invalidations
    compose: invalidating by [p] and then by [q] leaves the store that
    one invalidation leaves by a pattern [r] matching exactly the keys
    that [p] or [q] matches, the two counts add up to its count, and
    invalidating by [p] a second time removes nothing and returns 0. *)
Theorem invalidatePattern_composes {T : Type} (c : SmartCache.t T)
    (p q r : StatefulPattern.RegExpObject) :
  StatefulPattern.flagless p = true ->
  StatefulPattern.flagless q = true ->
  StatefulPattern.flagless r = true ->
  (forall k, StatefulPattern.matches r k
             = StatefulPattern.matches p k || StatefulPattern.matches q k) ->
  let a := StatefulPattern.invalidatePattern c p in
  let b := StatefulPattern.invalidatePattern (snd (fst a)) q in
  let u := StatefulPattern.invalidatePattern c r in
  snd (fst b) = snd (fst u)
  /\ (fst (fst a) + fst (fst b))%Z = fst (fst u)
  /\ StatefulPattern.invalidatePattern (snd (fst a)) (snd a) = (0%Z, snd (fst a), p).
Proof.
  intros Hp Hq Hr Hor a b u. subst a b u.
  rewrite !StatefulFacts.invalidatePattern_flagless by assumption.
  simpl fst. simpl snd.
  rewrite ?StatefulFacts.invalidatePattern_flagless by assumption.
  simpl fst. simpl snd.
  rewrite (StatefulFacts.invalidatePattern_ext c (StatefulPattern.as_function r)
             (Calls.either (StatefulPattern.as_function p)
                           (StatefulPattern.as_function q)) Hor).
  destruct (flagless_invalidatePattern_composes c (StatefulPattern.as_function p)
              (StatefulPattern.as_function q)) as [H1 [H2 H3]].
  split; [exact H1|]. split; [exact H2|]. now rewrite H3.
Qed.

Lemma invalidatePattern_composes_witness :
  StatefulPattern.flagless PatternExamples.md_plain = true
  /\ StatefulPattern.flagless PatternExamples.txt_plain = true
  /\ StatefulPattern.flagless PatternExamples.md_or_txt = true
  /\ (fst (fst (StatefulPattern.invalidatePattern Examples.cache_mixed
                  PatternExamples.md_plain))
      + fst (fst (StatefulPattern.invalidatePattern
                    (snd (fst (StatefulPattern.invalidatePattern Examples.cache_mixed
                                 PatternExamples.md_plain)))
                    PatternExamples.txt_plain)))%Z
     = fst (fst (StatefulPattern.invalidatePattern Examples.cache_mixed
                   PatternExamples.md_or_txt)).
Proof.
  assert (Hor : forall k,
            StatefulPattern.matches PatternExamples.md_or_txt k
            = StatefulPattern.matches PatternExamples.md_plain k
              || StatefulPattern.matches PatternExamples.txt_plain k).
  { intros k. unfold StatefulPattern.matches. simpl.
    now destruct (StatefulPattern.search_to_end PatternExamples.md_regex k 0). }
  split; [reflexivity|]. split; [reflexivity|]. split; [reflexivity|].
  exact (proj1 (proj2 (invalidatePattern_composes Examples.cache_mixed
                         PatternExamples.md_plain PatternExamples.txt_plain
                         PatternExamples.md_or_txt eq_refl eq_refl eq_refl Hor))).
Defined.
